(** * fastapi-sugar: the global object manager, its proxies and settings

    A shallow embedding of [fastapi_sugar/utils/global_manager.py] and of
    the error translation of [fastapi_sugar/settings.py].

    - Classes (the type identities used as dictionary keys and graph
      nodes) are identified by their [__name__].
    - [_instances] and [_dependencies] are Python dicts that are only ever
      looked up by key, so they are finite maps ([gmap]).
    - [_dependency_graph] is a [networkx.DiGraph]; iteration order over its
      nodes and successors is insertion order, so it is kept as lists.
    - Exceptions are values; every operation of the manager is a function
      from the state before to a result and the state after.
    - User code (constructors, [setup], [teardown], [param_name]) is a
      parameter of the development.  It may depend on the whole history
      of calls made so far. *)

From Stdlib Require Import Ascii.
From Stdlib Require String.
From stdpp Require Import gmap strings list fin_maps relations.

(** ** Exceptions *)

Inductive ExcType :=
  | TypeError
  | ValueError
  | RuntimeError
  | KeyError
  | AttributeError
  | NetworkXUnfeasible
  | ConfigurationError
  | OtherError (name : string).

(** An exception object: its class, its message and its [__cause__]
    (set by [raise ... from ...]). *)
Inductive Exc :=
  | Exn (ty : ExcType) (msg : string)
  | ExnFrom (ty : ExcType) (msg : string) (cause : Exc).

Definition exc_type (e : Exc) : ExcType :=
  match e with Exn t _ | ExnFrom t _ _ => t end.
Definition exc_msg (e : Exc) : string :=
  match e with Exn _ m | ExnFrom _ m _ => m end.
Definition exc_cause (e : Exc) : option Exc :=
  match e with Exn _ _ => None | ExnFrom _ _ c => Some c end.

Definition is_TypeError (e : Exc) : bool :=
  match exc_type e with TypeError => true | _ => false end.
Definition is_AttributeError (e : Exc) : bool :=
  match exc_type e with AttributeError => true | _ => false end.
Definition is_KeyError (e : Exc) : bool :=
  match exc_type e with KeyError => true | _ => false end.

Inductive Result (A : Type) :=
  | Ok (a : A)
  | Raise (e : Exc).
Arguments Ok {A} a.
Arguments Raise {A} e.

(** ** The dependency graph ([networkx.DiGraph]) *)

Definition Cls := string.

Module DiGraph.

  (** [nodes] in insertion order; [edges] in insertion order.  The
      successors of a node, in the order networkx iterates them, are the
      targets of its edges in that order. *)
Record t := mk { nodes : list Cls; edges : list (Cls * Cls) }.

Definition empty : t := mk [] [].

Definition has_node (g : t) (c : Cls) : bool := bool_decide (c ∈ nodes g).
Definition has_edge (g : t) (u v : Cls) : bool := bool_decide ((u, v) ∈ edges g).

  (** [G.add_node(c)]: nothing happens when the node is present. *)
Definition add_node (g : t) (c : Cls) : t :=
    if has_node g c then g else mk (nodes g ++ [c]) (edges g).

  (** [G.add_edge(u, v)]: both end points are added as nodes when missing
      ([u] first), and an edge already present is kept where it is. *)
Definition add_edge (g : t) (u v : Cls) : t :=
    let g1 := add_node (add_node g u) v in
    if has_edge g1 u v then g1 else mk (nodes g1) (edges g1 ++ [(u, v)]).

Definition neighbors (g : t) (u : Cls) : list Cls :=
    (filter (λ e, e.1 = u) (edges g)).*2.

Definition in_degree (g : t) (v : Cls) : nat :=
    length (filter (λ e, e.2 = v) (edges g)).

  (** *** [networkx.topological_generations]

      [indegree_map] holds the nodes of positive in-degree, [zero_indegree]
      the current generation.  A generation is scanned node by node; every
      successor has its count decremented and joins the next generation
      when the count reaches zero.  A missing count is the [KeyError] that
      networkx reports as "Graph changed during iteration". *)

Fixpoint relax (children : list Cls) (indegree_map : gmap Cls nat)
      (zero_indegree : list Cls) : option (gmap Cls nat * list Cls) :=
    match children with
    | [] => Some (indegree_map, zero_indegree)
    | child :: rest =>
        match indegree_map !! child with
        | None => None
        | Some d =>
            if decide (d - 1 = 0)
            then relax rest (delete child indegree_map) (zero_indegree ++ [child])
            else relax rest (<[child := d - 1]> indegree_map) zero_indegree
        end
    end.

Fixpoint scan (g : t) (this_generation : list Cls) (indegree_map : gmap Cls nat)
      (zero_indegree : list Cls) : option (gmap Cls nat * list Cls) :=
    match this_generation with
    | [] => Some (indegree_map, zero_indegree)
    | node :: rest =>
        match relax (neighbors g node) indegree_map zero_indegree with
        | None => None
        | Some (m, z) => scan g rest m z
        end
    end.

  (** How the generator ends. *)
Inductive Ending := Exhausted | Unfeasible | GraphChanged.

  (** The [while zero_indegree] loop.  The second component tells how the
      generator ends after yielding the generations of the first. *)
Fixpoint generations (fuel : nat) (g : t) (zero_indegree : list Cls)
      (indegree_map : gmap Cls nat) : option (list (list Cls) * Ending) :=
    match zero_indegree with
    | [] => Some ([], if decide (indegree_map = ∅) then Exhausted else Unfeasible)
    | _ :: _ =>
        match fuel with
        | 0 => None
        | S fuel' =>
            match scan g zero_indegree indegree_map [] with
            | None => Some ([], GraphChanged)
            | Some (m, z) =>
                match generations fuel' g z m with
                | None => None
                | Some (gs, e) => Some (zero_indegree :: gs, e)
                end
            end
        end
    end.

Definition initial_indegree_map (g : t) : gmap Cls nat :=
    list_to_map (omap (λ v, if decide (0 < in_degree g v)
                            then Some (v, in_degree g v) else None) (nodes g)).

Definition initial_zero_indegree (g : t) : list Cls :=
    filter (λ v, in_degree g v = 0) (nodes g).

Definition topological_generations (g : t) : list (list Cls) * Ending :=
    default ([], Unfeasible)
      (generations (S (size (initial_indegree_map g))) g
         (initial_zero_indegree g) (initial_indegree_map g)).

  (** [networkx.topological_sort]: the nodes it yields, in order, and how
      the generator ends. *)
Definition topological_sort (g : t) : list Cls * Ending :=
    let '(gs, e) := topological_generations g in (concat gs, e).

Definition unfeasible : Exc :=
    Exn NetworkXUnfeasible "Graph contains a cycle or graph changed during iteration".

Definition graph_changed : Exc :=
    ExnFrom RuntimeError "Graph changed during iteration" (Exn KeyError EmptyString).

  (** The exception, if any, with which the generator ends. *)
Definition ending_exc (e : Ending) : option Exc :=
    match e with
    | Exhausted => None
    | Unfeasible => Some unfeasible
    | GraphChanged => Some graph_changed
    end.

  (** [networkx.is_directed_acyclic_graph]: [has_cycle] drains
      [topological_sort] and catches [NetworkXUnfeasible] only. *)
Definition is_directed_acyclic_graph (g : t) : Result bool :=
    match (topological_sort g).2 with
    | Exhausted => Ok true
    | Unfeasible => Ok false
    | GraphChanged => Raise graph_changed
    end.

End DiGraph.

(** ** Objects, user code and the manager's state *)

(** A custom accessor passed as [get_fn] to [GlobalObject.__init__]. *)
Definition GetFn := nat.

(** A live object: the class it was built from, its identity (the number
    of calls made before its constructor ran) and what reading its
    attribute [get_fn] gives.  [GlobalObject.__init__] is what stores the
    attribute ([None] unless a custom accessor is passed); an object whose
    class overrides [__init__] and never calls it has no such attribute,
    and reading it raises. *)
Record Instance := mkInstance {
  inst_cls : Cls;
  inst_id : nat;
  get_fn : Result (option GetFn) }.

(** The [AttributeError] of a failed attribute lookup on a plain object. *)
Definition no_attribute (cls attr : string) : Exc :=
  Exn AttributeError ("'" +:+ cls +:+ "' object has no attribute '" +:+ attr +:+ "'").

(** What [get] hands out: the instance, or what its [get_fn] returns. *)
Inductive Value :=
  | VInstance (i : Instance)
  | VGetFn (f : GetFn).

(** Calls the manager makes into user code, with the exception they
    raised, if any. *)
Inductive Event :=
  | EvInit (c : Cls) (raised : option Exc)
  | EvSetup (c : Cls) (raised : option Exc)
  | EvTeardown (c : Cls) (raised : option Exc).

(** The registrable classes: what their constructor, [setup], [teardown]
    and [param_name] do.  Each may look at the calls made so far.  A
    constructor that returns tells what reading [get_fn] on the new object
    gives. *)
Class UserCode := {
  param_name : Cls → option string;
  construct : Cls → list (string * Instance) → list Event
              → Result (Result (option GetFn));
  setup_of : Instance → list Event → option Exc;
  teardown_of : Instance → list Event → option Exc }.

Definition is_upper (c : ascii) : bool :=
  ((65 <=? nat_of_ascii c) && (nat_of_ascii c <=? 90)).
Definition is_lower (c : ascii) : bool :=
  ((97 <=? nat_of_ascii c) && (nat_of_ascii c <=? 122)).
Definition to_lower (c : ascii) : ascii :=
  if is_upper c then ascii_of_nat (nat_of_ascii c + 32) else c.
Definition to_upper (c : ascii) : ascii :=
  if is_lower c then ascii_of_nat (nat_of_ascii c - 32) else c.

Fixpoint upper (s : string) : string :=
  match s with
  | EmptyString => EmptyString
  | String c s' => String (to_upper c) (upper s')
  end.

Fixpoint snake_tail (s : string) : string :=
  match s with
  | EmptyString => EmptyString
  | String c s' =>
      if is_upper c then String "_"%char (String (to_lower c) (snake_tail s'))
      else String c (snake_tail s')
  end.

(** [GlobalObject.param_name]: an underscore before every capital that is
    not the first character, then lower case. *)
Definition GlobalObject_param_name (cls_name : string) : option string :=
  Some match cls_name with
       | EmptyString => EmptyString
       | String c s' => String (to_lower c) (snake_tail s')
       end.

Record GlobalObjectManager := mkManager {
  _instances : gmap Cls (option Instance);
  _dependencies : gmap Cls (list Cls);
  _dependency_graph : DiGraph.t }.

(** [GlobalObjectManager.__init__] *)
Definition new_manager : GlobalObjectManager := mkManager ∅ ∅ DiGraph.empty.

Record State := mkState {
  manager : GlobalObjectManager;
  history : list Event }.

Definition initial_state : State := mkState new_manager [].

Definition log (ev : Event) (st : State) : State :=
  mkState (manager st) (history st ++ [ev]).

(** [self._instances[cls] = v] *)
Definition set_instance (cls : Cls) (v : option Instance) (st : State) : State :=
  mkState (mkManager (<[cls := v]> (_instances (manager st)))
                     (_dependencies (manager st))
                     (_dependency_graph (manager st)))
          (history st).

(** ** Computations: state, exceptions and unbounded recursion

    [None] stands for a call that never returns (recursion that does not
    bottom out). *)
Definition M (A : Type) : Type := State → option (Result A * State).

Definition ret {A} (a : A) : M A := λ st, Some (Ok a, st).
Definition raise {A} (e : Exc) : M A := λ st, Some (Raise e, st).
Definition bind {A B} (m : M A) (k : A → M B) : M B := λ st,
  match m st with
  | None => None
  | Some (Raise e, st') => Some (Raise e, st')
  | Some (Ok a, st') => k a st'
  end.

Notation "'let!' x ':=' m 'in' k" := (bind m (λ x, k))
  (at level 10, x pattern, m at level 100, k at level 200).

(** [d[k] = v] on a dict kept as an association list in insertion order. *)
Fixpoint dict_set {V} (k : string) (v : V) (d : list (string * V)) : list (string * V) :=
  match d with
  | [] => [(k, v)]
  | (k', v') :: d' => if decide (k' = k) then (k, v) :: d' else (k', v') :: dict_set k v d'
  end.

Section Manager.
Context `{UserCode}.

  (** The [for dep in self._dependencies[cls]] loop of [_get_instance];
      [rec] is the recursive call. *)
Fixpoint resolve_deps (rec : Cls → M Instance) (deps : list Cls)
      (dep_instances : list (string * Instance)) : M (list (string * Instance)) :=
    match deps with
    | [] => ret dep_instances
    | dep :: rest =>
        let! dep_instance := rec dep in
        match param_name dep with
        | None => resolve_deps rec rest dep_instances
        | Some p => resolve_deps rec rest (dict_set p dep_instance dep_instances)
        end
    end.

  (** [except TypeError as t: raise RuntimeError(...) from t]; any other
      exception passes through. *)
Definition wrap_TypeError (cls : Cls) (e : Exc) : Exc :=
    if is_TypeError e
    then ExnFrom RuntimeError ("Failed to instantiate " +:+ cls) e
    else e.

  (** The [try] block of [_get_instance]. *)
Definition instantiate (cls : Cls) (dep_instances : list (string * Instance)) : M Instance :=
    λ st,
      match construct cls dep_instances (history st) with
      | Raise e => Some (Raise (wrap_TypeError cls e), log (EvInit cls (Some e)) st)
      | Ok gf =>
          let inst := mkInstance cls (length (history st)) gf in
          let st1 := set_instance cls (Some inst) (log (EvInit cls None) st) in
          match setup_of inst (history st1) with
          | Some e => Some (Raise (wrap_TypeError cls e), log (EvSetup cls (Some e)) st1)
          | None => Some (Ok inst, log (EvSetup cls None) st1)
          end
      end.

Fixpoint _get_instance (fuel : nat) (cls : Cls) : M Instance :=
    match fuel with
    | 0 => λ _, None
    | S fuel' => λ st,
        match _instances (manager st) !! cls with
        | None => raise (Exn RuntimeError (cls +:+ " is not registered.")) st
        | Some (Some inst) => ret inst st
        | Some None =>
            match _dependencies (manager st) !! cls with
            | None => raise (Exn KeyError cls) st
            | Some deps =>
                (let! dep_instances := resolve_deps (_get_instance fuel') deps [] in
                 instantiate cls dep_instances) st
            end
        end
    end.

  (** What [get] makes of an instance: it reads [instance.get_fn], which
      may raise, and calls it when it is not [None]. *)
Definition get_result (instance : Instance) : Result Value :=
    match get_fn instance with
    | Raise e => Raise e
    | Ok (Some f) => Ok (VGetFn f)
    | Ok None => Ok (VInstance instance)
    end.

Definition get (fuel : nat) (cls : Cls) : M Value :=
    let! instance := _get_instance fuel cls in
    λ st, Some (get_result instance, st).

Fixpoint startup_loop (fuel : nat) (order : list Cls) : M unit :=
    match order with
    | [] => ret tt
    | cls :: rest => let! _ := _get_instance fuel cls in startup_loop fuel rest
    end.

Definition finish (e : DiGraph.Ending) : M unit :=
    match DiGraph.ending_exc e with
    | None => ret tt
    | Some x => raise x
    end.

  (** [startup]: the loop body runs on every node the generator yields;
      the generator's own exception comes after the last of them. *)
Definition startup (fuel : nat) : M unit := λ st,
    let '(order, e) := DiGraph.topological_sort (_dependency_graph (manager st)) in
    (let! _ := startup_loop fuel order in finish e) st.

Fixpoint shutdown_loop (order : list Cls) : M unit :=
    match order with
    | [] => ret tt
    | cls :: rest => λ st,
        match _instances (manager st) !! cls with
        | None => raise (Exn KeyError cls) st
        | Some None => shutdown_loop rest st
        | Some (Some inst) =>
            match teardown_of inst (history st) with
            | Some e => Some (Raise e, log (EvTeardown cls (Some e)) st)
            | None =>
                shutdown_loop rest (set_instance cls None (log (EvTeardown cls None) st))
            end
        end
    end.

  (** [shutdown]: [list(...)] drains the generator before the loop starts. *)
Definition shutdown : M unit := λ st,
    let '(order, e) := DiGraph.topological_sort (_dependency_graph (manager st)) in
    (let! _ := finish e in shutdown_loop (reverse order)) st.

  (** The argument of [Depends(...)]: [instance.get_fn] or [lambda: instance]. *)
Inductive Accessor :=
    | AccGetFn (f : GetFn)
    | AccLambda (instance : Instance).

Inductive Depends := mkDepends (dependency : Accessor).

Definition depends (fuel : nat) (cls : Cls) : M Depends :=
    let! instance := _get_instance fuel cls in
    match get_fn instance with
    | Raise e => raise e
    | Ok (Some f) => ret (mkDepends (AccGetFn f))
    | Ok None => ret (mkDepends (AccLambda instance))
    end.

  (** The framework calling the accessor while it handles a request. *)
Definition call_accessor (d : Depends) : M Value :=
    match d with
    | mkDepends (AccGetFn f) => ret (VGetFn f)
    | mkDepends (AccLambda instance) => ret (VInstance instance)
    end.

End Manager.

(** [register]'s inner [decorator]. *)
Definition register_graph (g : DiGraph.t) (c : Cls) (deps : list Cls) : DiGraph.t :=
  foldl (λ g dep, DiGraph.add_edge g dep c) (DiGraph.add_node g c) deps.

Definition CircularDependency (c : Cls) : Exc :=
  Exn ValueError ("Circular dependency detected when registering " +:+ c).

Definition register (c : Cls) (dependencies : option (list Cls)) : M Cls := λ st,
  let deps := default [] dependencies in
  let m := manager st in
  let st' := mkState (mkManager (<[c := None]> (_instances m))
                                (<[c := deps]> (_dependencies m))
                                (register_graph (_dependency_graph m) c deps))
                     (history st) in
  match DiGraph.is_directed_acyclic_graph (_dependency_graph (manager st')) with
  | Raise e => Some (Raise e, st')
  | Ok false => Some (Raise (CircularDependency c), st')
  | Ok true => Some (Ok c, st')
  end.

(** A run of [register] calls, stopping at the first that raises. *)
Fixpoint register_all (regs : list (Cls * list Cls)) : M unit :=
  match regs with
  | [] => ret tt
  | (c, deps) :: rest => let! _ := register c (Some deps) in register_all rest
  end.

(** ** Python text

    Strings stand for Python's [str].  [str.upper] is Python's own: on
    ASCII text it is [upper]; what it does to other characters is Unicode's
    case mapping, which is no part of this program. *)

(** The characters of a string. *)
Fixpoint chars (s : string) : list ascii :=
  match s with
  | EmptyString => []
  | String c s' => c :: chars s'
  end.

(** A string of ASCII characters, as class names usually are. *)
Definition ascii_only (s : string) : Prop :=
  Forall (λ c, nat_of_ascii c < 128) (chars s).

Class PyStr := {
  str_upper : string → string;
  str_upper_ascii : ∀ s, ascii_only s → str_upper s = upper s }.

(** ** [GlobalObjectProxy]

    The attribute [_instance] is kept as Python keeps it: present in the
    object's dictionary (holding [None] or a payload) or deleted from it.
    Reading [self._instance] when the attribute is deleted falls back to
    the [__getattr__] of the object's class, whose body reads
    [self._instance] again.  [Val] are Python values, known by what
    [getattr(v, item)] and [v[item]] give; [None] of the result type
    stands for a recursion that does not bottom out, which Python ends
    with [RecursionError]. *)

Module GlobalObjectProxy.
Section Proxy.
Context {Val : Type}.
Context (is_none : Val → bool) (py_none : Val).
Context (val_getattr val_getitem : Val → string → Result Val).

(** [slot = None]: the attribute is not in the object's dictionary. *)
Record t := mk { slot : option Val }.

Definition ContractViolation : Exc :=
  Exn RuntimeError
    "The `_instance` attribute must be set in the `_setup_proxy_impl` method.".

(** [__init__]: [self._instance = None]. *)
Definition __init__ : t := mk (Some py_none).

(** Evaluating [self._instance]; [hook] is the [__getattr__] of the
    object's class, bound to the object. *)
Definition read_instance_with (hook : string → option (Result Val)) (self : t)
    : option (Result Val) :=
  match slot self with
  | Some v => Some (Ok v)
  | None => hook "_instance"
  end.

(** The body of [__getattr__]: [getattr(self._instance, item)]. *)
Definition getattr_with (hook : string → option (Result Val)) (self : t)
    (item : string) : option (Result Val) :=
  match read_instance_with hook self with
  | None => None
  | Some (Raise e) => Some (Raise e)
  | Some (Ok v) => Some (val_getattr v item)
  end.

(** The body of [__getitem__]: [self._instance[item]]. *)
Definition getitem_with (hook : string → option (Result Val)) (self : t)
    (item : string) : option (Result Val) :=
  match read_instance_with hook self with
  | None => None
  | Some (Raise e) => Some (Raise e)
  | Some (Ok v) => Some (val_getitem v item)
  end.

(** The body of [setup]; [hook self'] is the [__getattr__] of the class,
    bound to the object as [_setup_proxy_impl] left it. *)
Definition setup_with (hook : t → string → option (Result Val))
    (_setup_proxy_impl : t → Result t) (self : t) : option (Result t) :=
  match _setup_proxy_impl self with
  | Raise e => Some (Raise e)
  | Ok self' =>
      match read_instance_with (hook self') self' with
      | None => None
      | Some (Raise e) => Some (Raise e)
      | Some (Ok v) =>
          if is_none v then Some (Raise ContractViolation) else Some (Ok self')
      end
  end.

(** The methods of a proxy whose class does not override [__getattr__]. *)
Fixpoint __getattr__ (fuel : nat) (self : t) (item : string) : option (Result Val) :=
  match fuel with
  | 0 => None
  | S fuel' => getattr_with (__getattr__ fuel' self) self item
  end.

Definition read_instance (fuel : nat) (self : t) : option (Result Val) :=
  read_instance_with (__getattr__ fuel self) self.

Definition __getitem__ (fuel : nat) (self : t) (item : string) : option (Result Val) :=
  getitem_with (__getattr__ fuel self) self item.

(** [_teardown_proxy_impl]: [del self._instance]. *)
Definition _teardown_proxy_impl (self : t) : Result t :=
  match slot self with
  | Some _ => Ok (mk None)
  | None => Raise (Exn AttributeError "_instance")
  end.

Definition teardown (self : t) : Result t := _teardown_proxy_impl self.

Definition setup (_setup_proxy_impl : t → Result t) (fuel : nat) (self : t)
    : option (Result t) :=
  setup_with (__getattr__ fuel) _setup_proxy_impl self.

End Proxy.
End GlobalObjectProxy.

(** ** [AppSettings]

    The wrapped [Dynaconf] object is a Python value like any other, known
    by its attribute access, its item access and what calling it gives. *)

(** Plain configuration values. *)
Inductive PyValue :=
  | PStr (s : string)
  | PInt (z : Z)
  | PBool (b : bool)
  | PNone.

Module AppSettings.
Section AppSettings.
Context {Val : Type} `{PyStr}.
    (** [None], a [str] and a tuple of [str] as Python values. *)
Context (py_none : Val) (val_str : string → Val) (val_tuple : list string → Val).
Context (val_getattr val_getitem : Val → string → Result Val).
    (** Calling a value with arguments. *)
Context (val_call : Val → list Val → Result Val).
    (** What the classes of the object ([AppSettings], [GlobalObjectProxy],
        [GlobalObject], [ABC], [object]) define under a name: their methods
        and Python's own attributes. *)
Context (class_attr : string → option Val).

Record t := mk {
  proxy : @GlobalObjectProxy.t Val;
  prefix : string;
  settings_files : list string }.

Definition _instance (self : t) : option Val := GlobalObjectProxy.slot (proxy self).

    (** [__init__]; [app_name] is [os.environ.get('APP_NAME')]. *)
Definition __init__ (app_name : option string) (settings_files : list string) : t :=
  mk (GlobalObjectProxy.__init__ py_none) (str_upper (default "app" app_name))
     settings_files.

Definition nl : string := String (ascii_of_nat 10) EmptyString.
Definition tab : string := String (ascii_of_nat 9) EmptyString.

Definition hint_get : string :=
  "If the setting is optional, consider using the .get() method with a default value.".

Definition _generate_error_message (self : t) (key : string) : string :=
  "Setting '" +:+ key +:+ "' not found in configuration." +:+ nl +:+
  "Please check the following:" +:+ nl +:+
  "1. The setting is defined in one of these files: "
    +:+ String.concat ", " (settings_files self) +:+ nl +:+
  tab +:+ "Example: " +:+ key +:+ " = 'value'" +:+ nl +:+
  "2. If it's an environment variable, ensure it's prefixed with '"
    +:+ prefix self +:+ "_'" +:+ nl +:+
  tab +:+ "Example: export " +:+ str_upper (prefix self) +:+ "_" +:+ str_upper key
    +:+ "='value'" +:+ nl +:+
  "3. Check for typos in the setting name" +:+ nl +:+
  hint_get.

    (** [__getattr__]: [super().__getattr__(name)], with [AttributeError]
        turned into [ConfigurationError].  The [self._instance] of the
        inherited body comes back to this method when the attribute is
        deleted. *)
Fixpoint __getattr__ (fuel : nat) (self : t) (name : string) : option (Result Val) :=
  match fuel with
  | 0 => None
  | S fuel' =>
      match GlobalObjectProxy.getattr_with val_getattr (__getattr__ fuel' self)
              (proxy self) name with
      | None => None
      | Some (Raise e) =>
          if is_AttributeError e
          then Some (Raise (Exn ConfigurationError (_generate_error_message self name)))
          else Some (Raise e)
      | Some (Ok v) => Some (Ok v)
      end
  end.

    (** [__getitem__]: [super().__getitem__(item)], with [KeyError] turned
        into [ConfigurationError]. *)
Definition __getitem__ (fuel : nat) (self : t) (item : string) : option (Result Val) :=
  match GlobalObjectProxy.getitem_with val_getitem (__getattr__ fuel self)
          (proxy self) item with
  | None => None
  | Some (Raise e) =>
      if is_KeyError e
      then Some (Raise (Exn ConfigurationError (_generate_error_message self item)))
      else Some (Raise e)
  | Some (Ok v) => Some (Ok v)
  end.

    (** The object's dictionary: [get_fn] from [GlobalObject.__init__],
        [_instance] from [GlobalObjectProxy.__init__] unless deleted,
        [prefix] and [settings_files] from [AppSettings.__init__]. *)
Definition instance_dict (self : t) (name : string) : option Val :=
  if decide (name = "get_fn") then Some py_none
  else if decide (name = "_instance") then _instance self
  else if decide (name = "prefix") then Some (val_str (prefix self))
  else if decide (name = "settings_files") then Some (val_tuple (settings_files self))
  else None.

    (** Attribute access [self.name]: Python looks in the object's
        dictionary and in its classes, and calls [__getattr__] only when
        both fail.  (None of the four names of the dictionary is a
        property of the classes, so that the order of the first two does
        not matter.) *)
Definition getattribute (fuel : nat) (self : t) (name : string) : option (Result Val) :=
  match instance_dict self name with
  | Some v => Some (Ok v)
  | None =>
      match class_attr name with
      | Some v => Some (Ok v)
      | None => __getattr__ fuel self name
      end
  end.

    (** [settings.get(key, default)]: the attribute [get], then the call. *)
Definition get (fuel : nat) (self : t) (key : string) (default : Val)
    : option (Result Val) :=
  match getattribute fuel self "get" with
  | None => None
  | Some (Raise e) => Some (Raise e)
  | Some (Ok method) => Some (val_call method [val_str key; default])
  end.

End AppSettings.
End AppSettings.

(** ** Vocabulary of the statements *)

(** A graph as networkx keeps it: no node twice, every end point of an
    edge is a node. *)
Definition graph_wf (g : DiGraph.t) : Prop :=
  NoDup (DiGraph.nodes g) ∧
  ∀ u v, (u, v) ∈ DiGraph.edges g → u ∈ DiGraph.nodes g ∧ v ∈ DiGraph.nodes g.

(** [reaches g u v]: a walk of at least one edge leads from [u] to [v]. *)
Definition reaches (g : DiGraph.t) : relation Cls :=
  tc (λ u v, (u, v) ∈ DiGraph.edges g).

Definition acyclic (g : DiGraph.t) : Prop := ∀ u, ¬ reaches g u u.

(** Every predecessor of a node of [order] stands strictly before it. *)
Definition respects (E : list (Cls * Cls)) (order : list Cls) : Prop :=
  ∀ l1 v l2 u, order = l1 ++ v :: l2 → (u, v) ∈ E → u ∈ l1.

(** Edges into [v] whose source is not among the nodes [P] already scanned. *)
Definition pending (E : list (Cls * Cls)) (P : list Cls) (v : Cls) : nat :=
  length (filter (λ e, e.2 = v ∧ e.1 ∉ P) E).

Definition occ (v : Cls) (cs : list Cls) : nat :=
  length (filter (λ c, c = v) cs).

(** The loop invariant of [topological_generations]: [P] are the nodes
    scanned so far, [cs] the successors of the last of them that are still
    to be relaxed, [F] the rest of the current generation followed by the
    next one, [m] the [indegree_map]. *)
Record kahn_inv (g : DiGraph.t) (P cs F : list Cls) (m : gmap Cls nat) : Prop := {
  ki_nodup : NoDup (P ++ F);
  ki_map : ∀ v d, m !! v = Some d →
             d = pending (DiGraph.edges g) P v + occ v cs ∧ 0 < d ∧ v ∉ P ++ F;
  ki_front : ∀ v, v ∈ F → pending (DiGraph.edges g) P v + occ v cs = 0;
  ki_resp : respects (DiGraph.edges g) P;
  ki_cover : ∀ v, v ∈ DiGraph.nodes g → v ∈ P ∨ v ∈ F ∨ is_Some (m !! v);
  ki_sub : ∀ v, v ∈ P ++ F → v ∈ DiGraph.nodes g;
  ki_children : ∀ c, c ∈ cs → ∃ n, last P = Some n ∧ (n, c) ∈ DiGraph.edges g }.

(** What a reachable manager satisfies: the graph is well formed, the two
    dictionaries have the same keys, every registered class is a node and
    every stored dependency is an edge. *)
Record manager_wf (m : GlobalObjectManager) : Prop := {
  mw_graph : graph_wf (_dependency_graph m);
  mw_dom : ∀ c, is_Some (_instances m !! c) ↔ is_Some (_dependencies m !! c);
  mw_nodes : ∀ c, is_Some (_instances m !! c) → c ∈ DiGraph.nodes (_dependency_graph m);
  mw_edges : ∀ c deps d, _dependencies m !! c = Some deps → d ∈ deps →
               (d, c) ∈ DiGraph.edges (_dependency_graph m) }.

(** The cache entry of [c] holds an instance / is [None]. *)
Definition cached (st : State) (c : Cls) : Prop :=
  ∃ i, _instances (manager st) !! c = Some (Some i).

Definition absent (st : State) (c : Cls) : Prop :=
  _instances (manager st) !! c = Some None.

(** What a resolution may change between [st] and [st']: nothing but
    cache entries that go from [None] to an instance, and never those of
    the classes [S] whose own resolution is under way. *)
Record frames (S : list Cls) (st st' : State) : Prop := {
  fr_deps : _dependencies (manager st') = _dependencies (manager st);
  fr_graph : _dependency_graph (manager st') = _dependency_graph (manager st);
  fr_cached : ∀ c i, _instances (manager st) !! c = Some (Some i) →
                _instances (manager st') !! c = Some (Some i);
  fr_absent : ∀ c, c ∈ S → absent st c → absent st' c;
  fr_unreg : ∀ c, _instances (manager st) !! c = None ↔ _instances (manager st') !! c = None;
  fr_history : ∃ evs, history st' = history st ++ evs }.

(** Every class of [S] has a dependency that is in [S] or is [y]: while
    the classes of [S] are being resolved, none can complete before [y]. *)
Definition stuck (D : gmap Cls (list Cls)) (S : list Cls) (y : Cls) : Prop :=
  ∀ x, x ∈ S → ∃ ds d, D !! x = Some ds ∧ d ∈ ds ∧ (d ∈ S ∨ d = y).

Definition is_raise {A} (r : Result A) : Prop := ∃ e, r = Raise e.

(** The classes whose constructor returned, in call order, and the
    classes whose [teardown] was called, in call order. *)
Definition construction_order (evs : list Event) : list Cls :=
  omap (λ ev, match ev with EvInit c None => Some c | _ => None end) evs.

Definition teardown_order (evs : list Event) : list Cls :=
  omap (λ ev, match ev with EvTeardown c _ => Some c | _ => None end) evs.

(** The calls a successful start-up makes for the classes of [order]. *)
Definition startup_events (order : list Cls) : list Event :=
  order ≫= λ c, [EvInit c None; EvSetup c None].

(** ** Sample user code and sample managers *)

(** Classes whose constructor, [setup] and [teardown] simply return. *)
Definition plain_code : UserCode := {|
  param_name := GlobalObject_param_name;
  construct := λ _ _ _, Ok (Ok None);
  setup_of := λ _ _, None;
  teardown_of := λ _ _, None |}.

(** As [plain_code], but the constructor of ["Flaky"] raises [e]. *)
Definition failing_constructor (e : Exc) : UserCode := {|
  param_name := GlobalObject_param_name;
  construct := λ c _ _, if decide (c = "Flaky") then Raise e else Ok (Ok None);
  setup_of := λ _ _, None;
  teardown_of := λ _ _, None |}.

(** As [plain_code], but [setup] of ["Flaky"] raises [e]. *)
Definition failing_setup (e : Exc) : UserCode := {|
  param_name := GlobalObject_param_name;
  construct := λ _ _ _, Ok (Ok None);
  setup_of := λ i _, if decide (inst_cls i = "Flaky") then Some e else None;
  teardown_of := λ _ _, None |}.

(** As [plain_code], but ["Custom"] objects are built with [get_fn=7]. *)
Definition custom_accessor : UserCode := {|
  param_name := GlobalObject_param_name;
  construct := λ c _ _, if decide (c = "Custom") then Ok (Ok (Some 7)) else Ok (Ok None);
  setup_of := λ _ _, None;
  teardown_of := λ _ _, None |}.

(** The state a computation leaves behind. *)
Definition state_after {A} (m : M A) (st : State) : State :=
  match m st with Some (_, st') => st' | None => st end.

(** [register] called for each class of the list, on a new manager. *)
Definition registered (regs : list (Cls * list Cls)) : State :=
  foldl (λ st '(c, deps), state_after (register c (Some deps)) st) initial_state regs.

(** The state [register] leaves behind, whether it returns or raises. *)
Definition committed (c : Cls) (dependencies : option (list Cls)) (st : State) : State :=
  mkState (mkManager (<[c := None]> (_instances (manager st)))
                     (<[c := default [] dependencies]> (_dependencies (manager st)))
                     (register_graph (_dependency_graph (manager st)) c
                        (default [] dependencies)))
          (history st).

(** Sample states. *)
Definition flaky_registered : State := registered [("Config", []); ("Flaky", ["Config"])].
Definition a_needs_b : State := registered [("A", ["B"])].
Definition two_independent : State := registered [("A", []); ("B", [])].
Definition chain_abc : State := registered [("A", []); ("B", ["A"]); ("C", ["B"])].

Definition is_cached (st : State) (c : Cls) : bool :=
  match _instances (manager st) !! c with Some (Some _) => true | _ => false end.

(** The classes [shutdown] finds constructed, in the order it visits them. *)
Definition shutdown_visits (st : State) : list Cls :=
  filter (λ c, is_cached st c = true)
    (reverse (DiGraph.topological_sort (_dependency_graph (manager st))).1).

(** Sample Python values: plain values, tuples of strings, methods of the
    proxy's classes, a settings object (a list of keys and values) that
    raises [AttributeError] and [KeyError] as Python objects and mappings
    do, and its bound method [get]. *)
Inductive PyObj :=
  | OVal (v : PyValue)
  | OTuple (l : list string)
  | OMethod (name : string)
  | OSettings (conf : list (string * PyValue))
  | OSettingsGet (conf : list (string * PyValue)).

Definition conf_lookup (conf : list (string * PyValue)) (key : string) : option PyValue :=
  (list_find (λ kv, kv.1 = key) conf) ≫= λ r, Some r.2.2.

Definition obj_is_none (o : PyObj) : bool :=
  match o with OVal PNone => true | _ => false end.

Definition obj_getattr (o : PyObj) (name : string) : Result PyObj :=
  match o with
  | OSettings conf =>
      if decide (name = "get") then Ok (OSettingsGet conf)
      else match conf_lookup conf name with
           | Some v => Ok (OVal v)
           | None => Raise (Exn AttributeError
                              ("'Settings' object has no attribute '" +:+ name +:+ "'"))
           end
  | _ => Raise (Exn AttributeError name)
  end.

Definition obj_getitem (o : PyObj) (item : string) : Result PyObj :=
  match o with
  | OSettings conf =>
      match conf_lookup conf item with
      | Some v => Ok (OVal v)
      | None => Raise (Exn KeyError item)
      end
  | _ => Raise (Exn TypeError "object is not subscriptable")
  end.


(** The methods the three classes of the source define. *)
Definition obj_class_attr (name : string) : option PyObj :=
  if bool_decide (name ∈ ["__init__"; "_setup_proxy_impl"; "_teardown_proxy_impl";
                          "_generate_error_message"; "__getattr__"; "__getitem__";
                          "setup"; "teardown"; "param_name"])
  then Some (OMethod name) else None.

(** [str.upper] on ASCII text. *)
Definition ascii_text : PyStr := {|
  str_upper := upper;
  str_upper_ascii := λ _ _, eq_refl |}.

Definition sample_conf : list (string * PyValue) :=
  [("debug", PBool true); ("version", PStr "1.0")].

Definition sample_settings : @AppSettings.t PyObj :=
  AppSettings.mk (GlobalObjectProxy.mk (Some (OSettings sample_conf))) "APP"
    ["../settings.toml"; "../.secrets.toml"].

(** Attribute access, item access and [get] on settings over these
    values. *)
Definition obj_str (s : string) : PyObj := OVal (PStr s).

Definition sample_getattribute : nat → AppSettings.t → string → option (Result PyObj) :=
  @AppSettings.getattribute PyObj ascii_text (OVal PNone) obj_str OTuple obj_getattr
    obj_class_attr.

Definition sample_getitem : nat → AppSettings.t → string → option (Result PyObj) :=
  @AppSettings.__getitem__ PyObj ascii_text obj_getattr obj_getitem.


Definition sample_error (key : string) : Exc :=
  Exn ConfigurationError (@AppSettings._generate_error_message PyObj ascii_text
                            sample_settings key).


Definition forgetful_impl (self : @GlobalObjectProxy.t PyObj) : Result GlobalObjectProxy.t :=
  Ok self.

Definition boom : Exc := Exn ValueError "boom".
Definition bad_call : Exc := Exn TypeError "__init__() got an unexpected keyword argument".

(** [two_independent] after [get("B")] and then [get("A")]. *)
Definition lazily_built : State :=
  state_after (@get plain_code 1 "A") (state_after (@get plain_code 1 "B") two_independent).

(** [chain_abc] after [startup()]. *)
Definition chain_started : State := state_after (@startup plain_code 2) chain_abc.

(** Consecutive elements of [l] are related by [R]. *)
Fixpoint chain (R : relation Cls) (l : list Cls) : Prop :=
  match l with
  | a :: (b :: _) as l' => R a b ∧ chain R l'
  | _ => True
  end.

(** A sample value type for proxies: plain values, with no attributes. *)
Definition plain_is_none (v : PyValue) : bool :=
  match v with PNone => true | _ => false end.

Definition plain_getattr (v : PyValue) (item : string) : Result PyValue :=
  Raise (Exn AttributeError item).

Definition plain_getitem (v : PyValue) (item : string) : Result PyValue :=
  Raise (Exn TypeError "object is not subscriptable").

(** As [plain_code], but ["Logger"] is not injected: its [param_name]
    returns [None], as in [fastapi_sugar.logging]. *)
Definition logger_code : UserCode := {|
  param_name := λ c, if decide (c = "Logger") then None else GlobalObject_param_name c;
  construct := λ _ _ _, Ok (Ok None);
  setup_of := λ _ _, None;
  teardown_of := λ _ _, None |}.

(** As [plain_code], but [teardown] of ["B"] raises [e]. *)
Definition failing_teardown (e : Exc) : UserCode := {|
  param_name := GlobalObject_param_name;
  construct := λ _ _ _, Ok (Ok None);
  setup_of := λ _ _, None;
  teardown_of := λ i _, if decide (inst_cls i = "B") then Some e else None |}.

(** [a_needs_b] after the rejected registration of ["B"] with ["A"] as
    its dependency. *)
Definition waiting_for_each_other : State := committed "B" (Some ["A"]) a_needs_b.

Definition service_registered : State :=
  registered [("AppSettings", []); ("Logger", ["AppSettings"]);
              ("Service", ["AppSettings"; "Logger"])].

(** ** [Logger]: the loggers of the standard library it takes over

    The registry of [logging] maps a name to its logger;
    [logging.getLogger(name)] makes a new logger (level [NOTSET],
    propagating, no handlers) for a name it has not seen. *)

Module Logger.








End Logger.

(** The classes of the usage example in the docstring of
    [GlobalObjectManager]: [Config] keeps [GlobalObject.__init__];
    [APIClient] defines [__init__(self, config)], which stores [config] and
    does not call [GlobalObject.__init__], so that its objects have no
    attribute [get_fn]. *)
Definition docstring_code : UserCode := {|
  param_name := GlobalObject_param_name;
  construct := λ c _ _, if decide (c = "APIClient")
                        then Ok (Raise (no_attribute "APIClient" "get_fn"))
                        else Ok (Ok None);
  setup_of := λ _ _, None;
  teardown_of := λ _ _, None |}.

Definition docstring_registered : State :=
  registered [("Config", []); ("APIClient", ["Config"])].

(** [docstring_registered] after [global_manager.startup()]. *)
Definition docstring_started : State :=
  state_after (@startup docstring_code 2) docstring_registered.


(** ["B"] depends on ["A"]; after [startup()], ["A"] is registered once
    more. *)
Definition pair_ab : State := registered [("A", []); ("B", ["A"])].

Definition pair_reregistered : State :=
  state_after (register "A" None) (state_after (@startup plain_code 2) pair_ab).

(** [pair_ab] after ["B"] was registered once more, without dependencies. *)
Definition pair_b_alone : State := state_after (register "B" None) pair_ab.

(** * Theorems *)

(** ** The graph *)

Lemma graph_wf_empty : graph_wf DiGraph.empty.
Proof. split; [constructor | intros u v Huv; inversion Huv]. Qed.

Lemma add_node_nodes g c v :
  v ∈ DiGraph.nodes (DiGraph.add_node g c) ↔ v ∈ DiGraph.nodes g ∨ v = c.
Proof.
  unfold DiGraph.add_node, DiGraph.has_node. case_bool_decide; simpl.
  - split; [auto | intros [?| ->]; auto].
  - rewrite elem_of_app, list_elem_of_singleton. tauto.
Qed.

Lemma add_node_edges g c : DiGraph.edges (DiGraph.add_node g c) = DiGraph.edges g.
Proof. unfold DiGraph.add_node. by destruct (DiGraph.has_node g c). Qed.

Lemma graph_wf_add_node g c : graph_wf g → graph_wf (DiGraph.add_node g c).
Proof.
  intros [Hnd Hcl]. split.
  - unfold DiGraph.add_node, DiGraph.has_node. case_bool_decide; simpl; [done|].
    apply NoDup_app. split_and!; [done | | apply NoDup_singleton].
    intros x Hx Hx'. apply list_elem_of_singleton in Hx'. by subst.
  - intros u v. rewrite add_node_edges, !add_node_nodes. intros Huv.
    destruct (Hcl u v Huv). auto.
Qed.

Lemma add_edge_nodes g a b v :
  v ∈ DiGraph.nodes (DiGraph.add_edge g a b) ↔ v ∈ DiGraph.nodes g ∨ v = a ∨ v = b.
Proof.
  unfold DiGraph.add_edge. destruct (DiGraph.has_edge _ _ _); simpl;
    rewrite !add_node_nodes; tauto.
Qed.

Lemma add_edge_edges g a b e :
  e ∈ DiGraph.edges (DiGraph.add_edge g a b) ↔ e ∈ DiGraph.edges g ∨ e = (a, b).
Proof.
  unfold DiGraph.add_edge, DiGraph.has_edge. case_bool_decide as Hin; simpl;
    rewrite ?add_node_edges in *.
  - split; [auto | intros [?| ->]; auto].
  - rewrite elem_of_app, list_elem_of_singleton. tauto.
Qed.

Lemma graph_wf_add_edge g a b : graph_wf g → graph_wf (DiGraph.add_edge g a b).
Proof.
  intros Hwf.
  assert (Hwf2 : graph_wf (DiGraph.add_node (DiGraph.add_node g a) b))
    by auto using graph_wf_add_node.
  split.
  - unfold DiGraph.add_edge. destruct (DiGraph.has_edge _ _ _); apply Hwf2.
  - intros u v Huv. apply add_edge_edges in Huv. rewrite !add_edge_nodes.
    destruct Huv as [Huv | [= -> ->]]; [|auto].
    destruct Hwf as [_ Hcl]. destruct (Hcl u v Huv). auto.
Qed.

(** *** Counting pending edges *)

Lemma occ_cons_eq c cs : occ c (c :: cs) = S (occ c cs).
Proof. unfold occ. by rewrite filter_cons_True. Qed.

Lemma occ_cons_ne c v cs : c ≠ v → occ v (c :: cs) = occ v cs.
Proof. intros Hne. unfold occ. by rewrite filter_cons_False. Qed.

Lemma pending_nil g v : pending (DiGraph.edges g) [] v = DiGraph.in_degree g v.
Proof.
  unfold pending, DiGraph.in_degree. f_equal. apply list_filter_iff.
  intros e. split; [tauto|]. intros He. split; [done | apply not_elem_of_nil].
Qed.

Lemma pending_zero E P u v : pending E P v = 0 → (u, v) ∈ E → u ∈ P.
Proof.
  intros Hz Huv. apply nil_length_inv in Hz.
  destruct (decide (u ∈ P)) as [|Hn]; [done|]. exfalso.
  by eapply (filter_nil_not_elem_of _ _ (u, v)) in Hz.
Qed.

Lemma pending_snoc g P n v :
  n ∉ P →
  pending (DiGraph.edges g) P v
  = pending (DiGraph.edges g) (P ++ [n]) v + occ v (DiGraph.neighbors g n).
Proof.
  intros Hn. unfold pending, occ, DiGraph.neighbors.
  induction (DiGraph.edges g) as [|[a b] E IH]; [done|].
  rewrite !filter_cons. simpl.
  destruct (decide (a = n)) as [->|Hne].
  - rewrite fmap_cons, filter_cons. simpl.
    destruct (decide (b = v)) as [->|Hbv].
    + rewrite decide_True by done.
      rewrite decide_False by (intros [_ Hx]; apply Hx; set_solver).
      simpl. lia.
    + rewrite !decide_False by tauto. done.
  - destruct (decide (b = v ∧ a ∉ P)) as [[-> Ha]|Hf].
    + rewrite decide_True by (split; [done | set_solver]). simpl. lia.
    + rewrite decide_False by (intros [? Hx]; apply Hf; split; [done | set_solver]).
      done.
Qed.

Lemma respects_last E P n c :
  respects E P → NoDup P → last P = Some n → (n, c) ∈ E → c ∉ P.
Proof.
  intros Hr Hnd Hl He Hc.
  apply list_elem_of_split in Hc as (l1 & l2 & ->).
  pose proof (Hr l1 c l2 n eq_refl He) as Hin.
  rewrite last_app_cons in Hl. apply last_Some_elem_of in Hl.
  apply NoDup_app in Hnd as (_ & Hdisj & _). by apply (Hdisj n).
Qed.

(** *** The invariant is kept *)

Section Kahn.
Context (g : DiGraph.t) (Hwf : graph_wf g).

Lemma kahn_inv_relax P rest cs :
  ∀ m z, kahn_inv g P cs (rest ++ z) m →
    ∃ m' z', DiGraph.relax cs m z = Some (m', z') ∧ kahn_inv g P [] (rest ++ z') m'.
Proof.
  induction cs as [|c cs IH]; intros m z Hinv; [by exists m, z|].
  simpl.
  assert (Hc : is_Some (m !! c)).
  { destruct (ki_children _ _ _ _ _ Hinv c) as (n & Hlast & Hedge); [left|].
    destruct Hwf as [_ Hcl]. destruct (Hcl _ _ Hedge) as [_ HcN].
    destruct (ki_cover _ _ _ _ _ Hinv c HcN) as [HP | [HF | Hm]]; [| |done].
    - exfalso. eapply respects_last; [apply (ki_resp _ _ _ _ _ Hinv) | | done..].
      pose proof (ki_nodup _ _ _ _ _ Hinv) as Hnd.
      by apply NoDup_app in Hnd as (? & _ & _).
    - apply (ki_front _ _ _ _ _ Hinv) in HF. rewrite occ_cons_eq in HF. lia. }
  destruct Hc as [d Hd]. rewrite Hd.
  destruct (ki_map _ _ _ _ _ Hinv c d Hd) as (Hdeq & Hpos & Hnotin).
  rewrite occ_cons_eq in Hdeq.
  destruct Hinv as [Hnd Hmap Hfront Hresp Hcover Hsub Hchild].
  case_decide as Hzero.
  - apply IH. rewrite (assoc_L (++)). split.
    + rewrite (assoc_L (++)). apply NoDup_app. split_and!; [done| |apply NoDup_singleton].
      intros x Hx Hx'. apply list_elem_of_singleton in Hx'. by subst.
    + intros v d' Hv. apply lookup_delete_Some in Hv as [Hne Hv].
      destruct (Hmap v d' Hv) as (Heq & ? & Hnin). rewrite occ_cons_ne in Heq by done.
      split_and!; [done..|]. rewrite (assoc_L (++)), elem_of_app, list_elem_of_singleton.
      intros [?| ->]; done.
    + intros v Hv. rewrite elem_of_app, list_elem_of_singleton in Hv.
      destruct Hv as [Hv| ->]; [|lia].
      apply Hfront in Hv. destruct (decide (c = v)) as [->|Hne].
      * rewrite occ_cons_eq in Hv. lia.
      * by rewrite occ_cons_ne in Hv.
    + done.
    + intros v Hv. destruct (Hcover v Hv) as [?|[?|[d' Hd']]]; [auto| |].
      * right; left. set_solver.
      * destruct (decide (c = v)) as [->|Hne]; [right; left; set_solver|].
        right; right. exists d'. by rewrite lookup_delete_ne.
    + intros v Hv. rewrite (assoc_L (++)), elem_of_app, list_elem_of_singleton in Hv.
      destruct Hv as [Hv| ->]; [by apply Hsub|].
      destruct (Hchild c) as (n & _ & Hedge); [left|].
      destruct Hwf as [_ Hcl]. by destruct (Hcl _ _ Hedge).
    + intros c' Hc'. apply Hchild. by right.
  - apply IH. split.
    + done.
    + intros v d' Hv. destruct (decide (c = v)) as [->|Hne].
      * rewrite lookup_insert_eq in Hv. injection Hv as <-.
        split_and!; [lia | lia | done].
      * rewrite lookup_insert_ne in Hv by done.
        destruct (Hmap v d' Hv) as (Heq & ? & Hnin). by rewrite occ_cons_ne in Heq.
    + intros v Hv. pose proof (Hfront v Hv) as Hf.
      destruct (decide (c = v)) as [->|Hne].
      * rewrite occ_cons_eq in Hf. lia.
      * by rewrite occ_cons_ne in Hf.
    + done.
    + intros v Hv. destruct (Hcover v Hv) as [?|[?|[d' Hd']]]; [auto..|].
      right; right. destruct (decide (c = v)) as [->|Hne].
      * rewrite lookup_insert_eq. eauto.
      * rewrite lookup_insert_ne by done. eauto.
    + done.
    + intros c' Hc'. apply Hchild. by right.
Qed.

Lemma kahn_inv_advance P n F m :
  kahn_inv g P [] (n :: F) m → kahn_inv g (P ++ [n]) (DiGraph.neighbors g n) F m.
Proof.
  intros [Hnd Hmap Hfront Hresp Hcover Hsub _].
  assert (HnP : n ∉ P).
  { apply NoDup_app in Hnd as (_ & Hdisj & _). intros HP. apply (Hdisj n HP). left. }
  split.
  - by rewrite <- (assoc_L (++)).
  - intros v d Hv. destruct (Hmap v d Hv) as (-> & ? & Hnin).
    rewrite <- (assoc_L (++)). split_and!; [|done..].
    unfold occ at 1. simpl. rewrite Nat.add_0_r. by apply pending_snoc.
  - intros v Hv. assert (Hv' : v ∈ n :: F) by (by right).
    apply Hfront in Hv'. unfold occ in Hv' at 1. simpl in Hv'.
    rewrite Nat.add_0_r in Hv'. by rewrite <- pending_snoc.
  - intros l1 v l2 u Heq Huv. destruct l2 as [|x l2 _] using rev_ind.
    + apply app_inj_tail in Heq as [-> <-].
      eapply pending_zero; [|done].
      assert (Hn : n ∈ n :: F) by left. apply Hfront in Hn.
      unfold occ in Hn. simpl in Hn. lia.
    + rewrite app_comm_cons, (assoc_L (++)) in Heq.
      apply app_inj_tail in Heq as [-> ->]. by eapply Hresp.
  - intros v Hv. destruct (Hcover v Hv) as [?|[HF|?]]; [left; set_solver| |auto].
    apply elem_of_cons in HF as [->|?]; [left; set_solver | auto].
  - intros v Hv. apply Hsub. by rewrite <- (assoc_L (++)) in Hv.
  - intros c Hc. exists n. split; [apply last_snoc|].
    unfold DiGraph.neighbors in Hc. apply list_elem_of_fmap in Hc as ([a b] & -> & Hab).
    apply list_elem_of_filter in Hab as [Ha Hab]. simpl in *. by subst.
Qed.

Lemma kahn_inv_scan gen :
  ∀ P z m, kahn_inv g P [] (gen ++ z) m →
    ∃ m' z', DiGraph.scan g gen m z = Some (m', z') ∧ kahn_inv g (P ++ gen) [] z' m'.
Proof.
  induction gen as [|n rest IH]; intros P z m Hinv.
  - exists m, z. by rewrite app_nil_r.
  - simpl. apply kahn_inv_advance in Hinv.
    apply kahn_inv_relax in Hinv as (m1 & z1 & -> & Hinv).
    apply IH in Hinv as (m' & z' & -> & Hinv).
    exists m', z'. by rewrite <- (assoc_L (++)) in Hinv.
Qed.

Lemma kahn_inv_generations fuel :
  ∀ zero P m gs e,
    kahn_inv g P [] zero m →
    DiGraph.generations fuel g zero m = Some (gs, e) →
    e ≠ DiGraph.GraphChanged ∧
    (e = DiGraph.Exhausted →
       respects (DiGraph.edges g) (P ++ concat gs) ∧ NoDup (P ++ concat gs) ∧
       ∀ v, v ∈ P ++ concat gs ↔ v ∈ DiGraph.nodes g).
Proof.
  induction fuel as [|fuel IH]; intros [|n zero] P m gs e Hinv Hgen; simpl in Hgen;
    try discriminate.
  1, 2: injection Hgen as <- <-; split; [by case_decide|];
    case_decide as Hm; [intros _ | done]; subst m; simpl; rewrite app_nil_r;
    destruct Hinv as [Hnd _ _ Hresp Hcover Hsub _]; rewrite app_nil_r in Hnd, Hsub;
    split_and!; [done..|];
    intros v; split; [apply Hsub|];
    intros Hv; destruct (Hcover v Hv) as [?|[HF|[? Hx]]];
    [done | by apply elem_of_nil in HF | by rewrite lookup_empty in Hx].
  destruct (kahn_inv_scan (n :: zero) P [] m) as (m' & z' & Hscan & Hinv').
  { by rewrite app_nil_r. }
  simpl in Hscan. rewrite Hscan in Hgen.
  destruct (DiGraph.generations fuel g z' m') as [[gs' e']|] eqn:Hrec; [|done].
  injection Hgen as <- <-.
  destruct (IH _ _ _ _ _ Hinv' Hrec) as [Hne Hex].
  split; [done|]. intros He. specialize (Hex He).
  simpl. by rewrite <- (assoc_L (++)) in Hex.
Qed.

Lemma kahn_inv_initial :
  kahn_inv g [] [] (DiGraph.initial_zero_indegree g) (DiGraph.initial_indegree_map g).
Proof.
  destruct Hwf as [Hnd Hcl].
  assert (Hlook : ∀ v d, DiGraph.initial_indegree_map g !! v = Some d →
            d = DiGraph.in_degree g v ∧ 0 < d ∧ v ∈ DiGraph.nodes g).
  { intros v d Hv. apply elem_of_list_to_map_2 in Hv.
    apply list_elem_of_omap in Hv as (x & Hx & Hf).
    case_decide; [|done]. by injection Hf as -> <-. }
  split.
  - simpl. by apply NoDup_filter.
  - intros v d Hv. destruct (Hlook v d Hv) as (-> & Hpos & _).
    rewrite pending_nil. split_and!; [unfold occ; simpl; lia | done |].
    simpl. unfold DiGraph.initial_zero_indegree. rewrite list_elem_of_filter. lia.
  - intros v Hv. apply list_elem_of_filter in Hv as [Hv _].
    rewrite pending_nil. unfold occ. simpl. lia.
  - intros l1 v l2 u Heq. by destruct l1.
  - intros v Hv. right. destruct (decide (DiGraph.in_degree g v = 0)) as [Hz|Hnz].
    + left. by apply list_elem_of_filter.
    + right. apply not_eq_None_Some. intros Hnone.
      apply not_elem_of_list_to_map in Hnone. apply Hnone.
      apply list_elem_of_fmap. exists (v, DiGraph.in_degree g v). split; [done|].
      apply list_elem_of_omap. exists v. split; [done|]. rewrite decide_True by lia. done.
  - simpl. intros v Hv. by apply list_elem_of_filter in Hv as [_ ?].
  - intros c Hc. by apply elem_of_nil in Hc.
Qed.

End Kahn.

(** *** The loop bound of [generations] is never reached *)

Lemma relax_size cs :
  ∀ m z m' z', DiGraph.relax cs m z = Some (m', z') →
    size m' + length z' = size m + length z.
Proof.
  induction cs as [|c cs IH]; simpl; intros m z m' z' Hr.
  - by injection Hr as <- <-.
  - destruct (m !! c) as [d|] eqn:Hc; [|done]. case_decide.
    + apply IH in Hr. rewrite length_app in Hr. simpl in Hr.
      assert (His : is_Some (m !! c)) by eauto.
      pose proof (map_size_delete_Some c m His) as Hs.
      pose proof (map_size_ne_0_lookup_2 m c His) as Hnz. lia.
    + apply IH in Hr. rewrite map_size_insert_Some in Hr by eauto. done.
Qed.

Lemma scan_size g gen :
  ∀ m z m' z', DiGraph.scan g gen m z = Some (m', z') →
    size m' + length z' = size m + length z.
Proof.
  induction gen as [|n gen IH]; simpl; intros m z m' z' Hs.
  - by injection Hs as <- <-.
  - destruct (DiGraph.relax _ m z) as [[m1 z1]|] eqn:Hr; [|done].
    apply relax_size in Hr. apply IH in Hs. lia.
Qed.

Lemma generations_returns g fuel :
  ∀ zero m, size m < fuel → is_Some (DiGraph.generations fuel g zero m).
Proof.
  induction fuel as [|fuel IH]; intros zero m Hlt; [lia|].
  destruct zero as [|n zero]; [by eexists|].
  cbn [DiGraph.generations].
  destruct (DiGraph.scan g (n :: zero) m []) as [[m' z']|] eqn:Hs; [|by eexists].
  assert (Hsz := scan_size _ _ _ _ _ _ Hs). simpl in Hsz.
  destruct z' as [|x z'].
  - destruct fuel; by eexists.
  - destruct (IH (x :: z') m') as [[gs e] Hg]; [simpl in Hsz; lia|].
    rewrite Hg. by eexists.
Qed.

(** *** [topological_sort] on a graph with no cycle to report *)

Lemma topological_sort_sound g order e :
  graph_wf g →
  DiGraph.topological_sort g = (order, e) →
  e ≠ DiGraph.GraphChanged ∧
  (e = DiGraph.Exhausted →
     respects (DiGraph.edges g) order ∧ NoDup order ∧
     ∀ v, v ∈ order ↔ v ∈ DiGraph.nodes g).
Proof.
  intros Hwf. unfold DiGraph.topological_sort, DiGraph.topological_generations.
  destruct (generations_returns g (S (size (DiGraph.initial_indegree_map g)))
              (DiGraph.initial_zero_indegree g) (DiGraph.initial_indegree_map g))
    as [[gs e'] Hg]; [lia|].
  rewrite Hg. simpl. intros [= <- <-].
  exact (kahn_inv_generations g Hwf _ _ _ _ _ _ (kahn_inv_initial g Hwf) Hg).
Qed.

Lemma respects_reaches g order u v l1 l2 :
  respects (DiGraph.edges g) order →
  reaches g u v → order = l1 ++ v :: l2 → u ∈ l1.
Proof.
  intros Hr Hp. revert l1 l2.
  induction Hp as [u v Huv | u x v Hux Hxv IH]; intros l1 l2 ->.
  - by eapply Hr.
  - pose proof (IH l1 l2 eq_refl) as Hx.
    apply list_elem_of_split in Hx as (a & b & ->).
    assert (Hu : u ∈ a).
    { eapply (Hr a x (b ++ v :: l2)); [|done]. by rewrite <- (assoc_L (++)). }
    set_solver.
Qed.

Lemma respects_acyclic g order :
  respects (DiGraph.edges g) order →
  (∀ v, v ∈ DiGraph.nodes g → v ∈ order) →
  graph_wf g → acyclic g.
Proof.
  intros Hr Hall [_ Hcl] u Hp.
  assert (Hu : u ∈ order).
  { apply Hall. inversion Hp as [? ? He | ? y ? He _]; subst; by destruct (Hcl _ _ He). }
  apply list_elem_of_split_l in Hu as (l1 & l2 & -> & Hnot).
  apply Hnot. by eapply respects_reaches.
Qed.

(** [is_directed_acyclic_graph] never reports a graph with a cycle as
    acyclic, and never fails with "Graph changed during iteration". *)
Lemma is_directed_acyclic_graph_sound g :
  graph_wf g →
  (DiGraph.is_directed_acyclic_graph g = Ok true ∧ acyclic g) ∨
  DiGraph.is_directed_acyclic_graph g = Ok false.
Proof.
  intros Hwf. unfold DiGraph.is_directed_acyclic_graph.
  destruct (DiGraph.topological_sort g) as [order e] eqn:Hts.
  destruct (topological_sort_sound g order e Hwf Hts) as [Hne Hex].
  simpl. destruct e; [left|by right|done].
  split; [done|]. destruct (Hex eq_refl) as (Hr & _ & Hall).
  eapply respects_acyclic; [done| |done]. intros v. apply Hall.
Qed.

(** ** Resolution *)

Lemma frames_refl S st : frames S st st.
Proof. split; try done. by exists []; rewrite app_nil_r. Qed.

Lemma frames_trans S st1 st2 st3 :
  frames S st1 st2 → frames S st2 st3 → frames S st1 st3.
Proof.
  intros [Hd1 Hg1 Hc1 Ha1 Hu1 [e1 He1]] [Hd2 Hg2 Hc2 Ha2 Hu2 [e2 He2]]. split.
  - congruence.
  - congruence.
  - eauto.
  - eauto.
  - intros c. by rewrite Hu1, Hu2.
  - exists (e1 ++ e2). by rewrite He2, He1, (assoc_L (++)).
Qed.

Lemma frames_weaken S S' st st' : S ⊆ S' → frames S' st st' → frames S st st'.
Proof. intros Hsub [? ? ? Ha ? ?]. split; try done. intros c Hc. apply Ha. by apply Hsub. Qed.

Lemma frames_log S ev st : frames S st (log ev st).
Proof. split; try done. by exists [ev]. Qed.

Section Resolution.
Context `{UserCode}.

Lemma instantiate_frames S y kw st r st' :
  absent st y → y ∉ S →
  instantiate y kw st = Some (r, st') →
  frames S st st' ∧ (∀ i, r = Ok i → _instances (manager st') !! y = Some (Some i)).
Proof.
  intros Hy HyS Hi. unfold instantiate in Hi.
  destruct (construct y kw (history st)) as [gf|e].
  - set (inst := mkInstance y (length (history st)) gf) in *.
    set (st1 := set_instance y (Some inst) (log (EvInit y None) st)) in *.
    assert (Hf : frames S st st1).
    { split; simpl; try done.
      - intros c i Hc. destruct (decide (y = c)) as [->|Hne].
        + unfold absent in Hy. congruence.
        + by rewrite lookup_insert_ne.
      - intros c Hc Hc'. unfold absent. simpl. rewrite lookup_insert_ne; [done|].
        intros ->. done.
      - intros c. destruct (decide (y = c)) as [->|Hne].
        + rewrite lookup_insert_eq. unfold absent in Hy. rewrite Hy. done.
        + by rewrite lookup_insert_ne.
      - by exists [EvInit y None]. }
    assert (Hl : _instances (manager st1) !! y = Some (Some inst))
      by (simpl; apply lookup_insert_eq).
    destruct (setup_of inst (history st1)) as [e|]; injection Hi as <- <-.
    + split; [|done]. eapply frames_trans; [done | apply frames_log].
    + split; [eapply frames_trans; [done | apply frames_log]|].
      by intros i [= <-].
  - injection Hi as <- <-. split; [apply frames_log | done].
Qed.

(** The dependency loop keeps what every recursive call keeps. *)
Lemma resolve_deps_frames (rec : Cls → M Instance) S D :
  (∀ d st r st',
      (∀ x, x ∈ S → absent st x) → _dependencies (manager st) = D → stuck D S d →
      rec d st = Some (r, st') →
      frames S st st' ∧ (d ∈ S → is_raise r)) →
  ∀ ds acc st r st',
    (∀ x, x ∈ S → absent st x) → _dependencies (manager st) = D →
    (∀ d, d ∈ ds → stuck D S d) →
    resolve_deps rec ds acc st = Some (r, st') →
    frames S st st' ∧ ((∃ d, d ∈ ds ∧ d ∈ S) → is_raise r).
Proof.
  intros Hrec. induction ds as [|d ds IH]; intros acc st r st' HS HD Hst Hr; simpl in Hr.
  - injection Hr as <- <-. split; [apply frames_refl|]. intros (d & Hd & _). by inversion Hd.
  - unfold bind in Hr. destruct (rec d st) as [[[i|e] st1]|] eqn:Hd; [| |done].
    + destruct (Hrec d st _ _ HS HD (Hst d ltac:(left)) Hd) as [Hf Hraise].
      assert (HS1 : ∀ x, x ∈ S → absent st1 x) by (intros x Hx; apply Hf; auto).
      assert (HD1 : _dependencies (manager st1) = D) by (rewrite <- HD; apply Hf).
      assert (Hst' : ∀ d', d' ∈ ds → stuck D S d') by (intros d' Hd'; apply Hst; by right).
      assert (Hrest : frames S st1 st' ∧ ((∃ d, d ∈ ds ∧ d ∈ S) → is_raise r)).
      { destruct (param_name d); eapply IH; eauto. }
      destruct Hrest as [Hf' Hraise']. split; [by eapply frames_trans|].
      intros (d' & Hd' & Hd'S). apply elem_of_cons in Hd' as [->|Hd'].
      * destruct (Hraise Hd'S) as [e He]. done.
      * apply Hraise'. eauto.
    + injection Hr as <- <-.
      destruct (Hrec d st _ _ HS HD (Hst d ltac:(left)) Hd) as [Hf _].
      split; [done|]. intros _. by eexists.
Qed.

(** While the classes of [S] are being resolved, a call of [_get_instance]
    changes none of their cache entries, and a call on one of them cannot
    return an instance. *)
Lemma _get_instance_frames fuel :
  ∀ S y st r st',
    (∀ x, x ∈ S → absent st x) →
    stuck (_dependencies (manager st)) S y →
    _get_instance fuel y st = Some (r, st') →
    frames S st st' ∧ (y ∈ S → is_raise r) ∧
    (∀ i, r = Ok i → _instances (manager st') !! y = Some (Some i)).
Proof.
  induction fuel as [|fuel IH]; intros S y st r st' HS Hstuck Hg; simpl in Hg; [done|].
  destruct (_instances (manager st) !! y) as [[inst|]|] eqn:Hy.
  - injection Hg as <- <-. split_and!; [apply frames_refl | | by intros i [= <-]].
    intros HyS. apply HS in HyS. unfold absent in HyS. congruence.
  - destruct (_dependencies (manager st) !! y) as [ds|] eqn:Hds.
    2:{ injection Hg as <- <-. split_and!; [apply frames_refl | by eexists | done]. }
    unfold bind in Hg.
    set (S' := if decide (y ∈ S) then S else y :: S).
    assert (HSS' : S ⊆ S') by (unfold S'; case_decide; set_solver).
    assert (HS' : ∀ x, x ∈ S' → absent st x).
    { unfold S'. case_decide; [done|]. intros x [->|Hx]%elem_of_cons; [done | auto]. }
    assert (Hst' : ∀ d, d ∈ ds → stuck (_dependencies (manager st)) S' d).
    { intros d Hd x Hx. unfold S' in *. case_decide as HyS.
      - destruct (Hstuck x Hx) as (dx & d' & Hdx & Hd' & Hor).
        exists dx, d'. split_and!; [done..|]. left. by destruct Hor as [?| ->].
      - apply elem_of_cons in Hx as [->|Hx].
        + exists ds, d. auto.
        + destruct (Hstuck x Hx) as (dx & d' & Hdx & Hd' & Hor).
          exists dx, d'. split_and!; [done..|]. left. set_solver. }
    assert (Hrec : ∀ d st0 r0 st0',
              (∀ x, x ∈ S' → absent st0 x) →
              _dependencies (manager st0) = _dependencies (manager st) →
              stuck (_dependencies (manager st)) S' d →
              _get_instance fuel d st0 = Some (r0, st0') →
              frames S' st0 st0' ∧ (d ∈ S' → is_raise r0)).
    { intros d st0 r0 st0' H1 H2 H3 H4. rewrite <- H2 in H3.
      by destruct (IH _ _ _ _ _ H1 H3 H4) as (? & ? & _). }
    destruct (resolve_deps (_get_instance fuel) ds [] st) as [[[kw|e] st1]|] eqn:Hr;
      [| |done].
    + destruct (resolve_deps_frames _ S' _ Hrec ds [] st _ _ HS' eq_refl Hst' Hr) as [Hf Hraise].
      destruct (decide (y ∈ S)) as [HyS|HyS].
      * exfalso. destruct (Hstuck y HyS) as (dx & d' & Hdx & Hd' & Hor).
        assert (dx = ds) by congruence. subst dx.
        destruct Hraise as [e He]; [|done].
        exists d'. split; [done|]. unfold S'. rewrite ?decide_True by done.
        destruct Hor as [?| ->]; done.
      * assert (Hy1 : absent st1 y).
        { apply Hf; [|done]. unfold S'. rewrite ?decide_False by done. left. }
        destruct (instantiate_frames S y kw st1 r st' Hy1 HyS Hg) as [Hf' Hok].
        split_and!; [|done|done].
        eapply frames_trans; [|done]. by eapply frames_weaken.
    + injection Hg as <- <-.
      destruct (resolve_deps_frames _ S' _ Hrec ds [] st _ _ HS' eq_refl Hst' Hr) as [Hf _].
      split_and!; [by eapply frames_weaken | by eexists | done].
  - injection Hg as <- <-. split_and!; [apply frames_refl | by eexists | done].
Qed.

End Resolution.

Example registered_chain :
  @startup plain_code 2 (registered [("A", []); ("B", ["A"]); ("C", ["B"])])
  = Some (Ok tt, state_after (@startup plain_code 2)
                   (registered [("A", []); ("B", ["A"]); ("C", ["B"])])).
Proof. vm_compute. reflexivity. Qed.

Example history_chain :
  history (state_after (@startup plain_code 2)
             (registered [("C", ["B"]); ("B", ["A"]); ("A", [])]))
  = [EvInit "A" None; EvSetup "A" None; EvInit "B" None; EvSetup "B" None;
     EvInit "C" None; EvSetup "C" None].
Proof. vm_compute. reflexivity. Qed.

Section Failures.
Context `{UserCode}.

(** The dependency loop of a class leaves the class's own entry alone. *)
Lemma resolve_deps_own_entry fuel cls st deps acc r st1 :
  absent st cls →
  _dependencies (manager st) !! cls = Some deps →
  resolve_deps (_get_instance fuel) deps acc st = Some (r, st1) →
  frames [cls] st st1 ∧ absent st1 cls.
Proof.
  intros Habs Hdeps Hr.
  assert (HS : ∀ x, x ∈ [cls] → absent st x).
  { intros x Hx. apply list_elem_of_singleton in Hx. by subst. }
  assert (Hst : ∀ d, d ∈ deps → stuck (_dependencies (manager st)) [cls] d).
  { intros d Hd x Hx. apply list_elem_of_singleton in Hx. subst. exists deps, d. auto. }
  assert (Hrec : ∀ d st0 r0 st0',
            (∀ x, x ∈ [cls] → absent st0 x) →
            _dependencies (manager st0) = _dependencies (manager st) →
            stuck (_dependencies (manager st)) [cls] d →
            _get_instance fuel d st0 = Some (r0, st0') →
            frames [cls] st0 st0' ∧ (d ∈ [cls] → is_raise r0)).
  { intros d st0 r0 st0' H1 H2 H3 H4. rewrite <- H2 in H3.
    by destruct (_get_instance_frames fuel _ _ _ _ _ H1 H3 H4) as (? & ? & _). }
  destruct (resolve_deps_frames _ [cls] _ Hrec deps acc st _ _ HS eq_refl Hst Hr)
    as [Hf _].
  split; [done|]. apply Hf; [left | done].
Qed.

(** Once the dependencies are resolved, the call is the [try] block. *)
Lemma _get_instance_resolved fuel cls st deps kwargs st1 :
  absent st cls →
  _dependencies (manager st) !! cls = Some deps →
  resolve_deps (_get_instance fuel) deps [] st = Some (Ok kwargs, st1) →
  _get_instance (S fuel) cls st = instantiate cls kwargs st1.
Proof.
  intros Habs Hdeps Hr. simpl. unfold absent in Habs. rewrite Habs, Hdeps.
  unfold bind. by rewrite Hr.
Qed.

Lemma get_raises fuel cls st e st' :
  _get_instance fuel cls st = Some (Raise e, st') →
  get fuel cls st = Some (Raise e, st') ∧
  (∀ rest, startup_loop fuel (cls :: rest) st = Some (Raise e, st')).
Proof. intros Hg. unfold get. simpl. unfold bind. by rewrite Hg. Qed.

Lemma instantiate_constructor_raises cls kwargs st1 e :
  construct cls kwargs (history st1) = Raise e →
  instantiate cls kwargs st1
  = Some (Raise (wrap_TypeError cls e), log (EvInit cls (Some e)) st1).
Proof. intros Hc. unfold instantiate. by rewrite Hc. Qed.

Lemma instantiate_setup_raises cls kwargs st1 gf e :
  construct cls kwargs (history st1) = Ok gf →
  setup_of (mkInstance cls (length (history st1)) gf)
    (history st1 ++ [EvInit cls None]) = Some e →
  instantiate cls kwargs st1
  = Some (Raise (wrap_TypeError cls e),
          log (EvSetup cls (Some e))
            (set_instance cls (Some (mkInstance cls (length (history st1)) gf))
               (log (EvInit cls None) st1))).
Proof. intros Hc Hs. unfold instantiate. rewrite Hc. simpl. by rewrite Hs. Qed.

(** C2 (amended): when the constructor of [cls] raises while [cls] is
    being resolved, [get] and the start-up loop abort with the
    exception and the cache entry of [cls] is still absent; when [setup]
    raises they abort as well. *)
Theorem constructor_failure_not_cached fuel cls st deps kwargs st1 :
  absent st cls →
  _dependencies (manager st) !! cls = Some deps →
  resolve_deps (_get_instance fuel) deps [] st = Some (Ok kwargs, st1) →
  (∀ e, construct cls kwargs (history st1) = Raise e →
     ∃ st2,
       get (S fuel) cls st = Some (Raise (wrap_TypeError cls e), st2) ∧
       (∀ rest, startup_loop (S fuel) (cls :: rest) st
                = Some (Raise (wrap_TypeError cls e), st2)) ∧
       absent st2 cls ∧
       history st2 = history st1 ++ [EvInit cls (Some e)]) ∧
  (∀ gf e,
     construct cls kwargs (history st1) = Ok gf →
     setup_of (mkInstance cls (length (history st1)) gf)
       (history st1 ++ [EvInit cls None]) = Some e →
     ∃ st2,
       get (S fuel) cls st = Some (Raise (wrap_TypeError cls e), st2) ∧
       (∀ rest, startup_loop (S fuel) (cls :: rest) st
                = Some (Raise (wrap_TypeError cls e), st2))).
Proof.
  intros Habs Hdeps Hr.
  pose proof (_get_instance_resolved _ _ _ _ _ _ Habs Hdeps Hr) as Hg.
  destruct (resolve_deps_own_entry _ _ _ _ _ _ _ Habs Hdeps Hr) as [_ Habs1].
  split.
  - intros e Hc. exists (log (EvInit cls (Some e)) st1).
    rewrite (instantiate_constructor_raises _ _ _ _ Hc) in Hg.
    destruct (get_raises _ _ _ _ _ Hg). done.
  - intros gf e Hc Hs. rewrite (instantiate_setup_raises _ _ _ _ _ Hc Hs) in Hg.
    eexists. by apply get_raises.
Qed.

(** C3 (amended): a [TypeError] raised by the constructor or by [setup]
    reaches the caller of [get] as the "Failed to instantiate"
    [RuntimeError] whose cause is that [TypeError]; any other exception
    reaches the caller unchanged. *)
Theorem only_TypeError_is_wrapped fuel cls st deps kwargs st1 e :
  absent st cls →
  _dependencies (manager st) !! cls = Some deps →
  resolve_deps (_get_instance fuel) deps [] st = Some (Ok kwargs, st1) →
  (construct cls kwargs (history st1) = Raise e ∨
   ∃ gf, construct cls kwargs (history st1) = Ok gf ∧
         setup_of (mkInstance cls (length (history st1)) gf)
           (history st1 ++ [EvInit cls None]) = Some e) →
  ∃ surfaced st2,
    get (S fuel) cls st = Some (Raise surfaced, st2) ∧
    (∀ rest, startup_loop (S fuel) (cls :: rest) st = Some (Raise surfaced, st2)) ∧
    (exc_type e = TypeError →
       surfaced = ExnFrom RuntimeError ("Failed to instantiate " +:+ cls) e ∧
       exc_cause surfaced = Some e) ∧
    (exc_type e ≠ TypeError → surfaced = e).
Proof.
  intros Habs Hdeps Hr Hraise.
  pose proof (_get_instance_resolved _ _ _ _ _ _ Habs Hdeps Hr) as Hg.
  assert (Hw : (exc_type e = TypeError →
                  wrap_TypeError cls e
                  = ExnFrom RuntimeError ("Failed to instantiate " +:+ cls) e ∧
                  exc_cause (wrap_TypeError cls e) = Some e) ∧
               (exc_type e ≠ TypeError → wrap_TypeError cls e = e)).
  { unfold wrap_TypeError, is_TypeError. destruct (exc_type e); split; done. }
  destruct Hw as [Hw1 Hw2].
  exists (wrap_TypeError cls e).
  destruct Hraise as [Hc | (gf & Hc & Hs)].
  - rewrite (instantiate_constructor_raises _ _ _ _ Hc) in Hg.
    eexists. destruct (get_raises _ _ _ _ _ Hg). by split_and!.
  - rewrite (instantiate_setup_raises _ _ _ _ _ Hc Hs) in Hg.
    eexists. destruct (get_raises _ _ _ _ _ Hg). by split_and!.
Qed.

End Failures.

(** ** Registration *)

Lemma foldl_add_edge_nodes c deps : ∀ g v,
  c ∈ DiGraph.nodes g →
  v ∈ DiGraph.nodes (foldl (λ g0 dep, DiGraph.add_edge g0 dep c) g deps)
  ↔ v ∈ DiGraph.nodes g ∨ v ∈ deps.
Proof.
  induction deps as [|d deps IH]; intros g v Hc; simpl.
  - set_solver.
  - rewrite IH by (apply add_edge_nodes; auto).
    rewrite add_edge_nodes. set_solver.
Qed.

Lemma foldl_add_edge_edges c deps : ∀ g e,
  e ∈ DiGraph.edges (foldl (λ g0 dep, DiGraph.add_edge g0 dep c) g deps)
  ↔ e ∈ DiGraph.edges g ∨ ∃ d, d ∈ deps ∧ e = (d, c).
Proof.
  induction deps as [|d deps IH]; intros g e; simpl.
  - set_solver.
  - rewrite IH, add_edge_edges. set_solver.
Qed.

Lemma register_graph_nodes c deps g v :
  v ∈ DiGraph.nodes (register_graph g c deps)
  ↔ v ∈ DiGraph.nodes g ∨ v = c ∨ v ∈ deps.
Proof.
  unfold register_graph.
  rewrite foldl_add_edge_nodes by (apply add_node_nodes; auto).
  rewrite add_node_nodes. tauto.
Qed.

Lemma register_graph_edges c deps g e :
  e ∈ DiGraph.edges (register_graph g c deps)
  ↔ e ∈ DiGraph.edges g ∨ ∃ d, d ∈ deps ∧ e = (d, c).
Proof. unfold register_graph. by rewrite foldl_add_edge_edges, add_node_edges. Qed.

Lemma graph_wf_register_graph c deps : ∀ g,
  graph_wf g → graph_wf (register_graph g c deps).
Proof.
  unfold register_graph. intros g Hwf.
  generalize (DiGraph.add_node g c) (graph_wf_add_node g c Hwf).
  induction deps as [|d deps IH]; intros g1 Hg1; simpl; [done|].
  apply IH. by apply graph_wf_add_edge.
Qed.

Lemma register_result c dependencies st :
  ∃ r, register c dependencies st = Some (r, committed c dependencies st).
Proof.
  unfold register. fold (committed c dependencies st).
  destruct (DiGraph.is_directed_acyclic_graph _) as [[|]|e]; eauto.
Qed.

Lemma manager_wf_new : manager_wf new_manager.
Proof.
  split; simpl.
  - apply graph_wf_empty.
  - intros c. by rewrite !lookup_empty.
  - intros c. rewrite lookup_empty. by intros [? ?].
  - intros c deps d. by rewrite lookup_empty.
Qed.

Lemma manager_wf_committed c dependencies st :
  manager_wf (manager st) → manager_wf (manager (committed c dependencies st)).
Proof.
  intros [Hg Hdom Hnodes Hedges]. split; simpl.
  - by apply graph_wf_register_graph.
  - intros c'. destruct (decide (c = c')) as [->|Hne].
    + rewrite !lookup_insert_eq. split; eauto.
    + by rewrite !lookup_insert_ne.
  - intros c' Hc'. apply register_graph_nodes.
    destruct (decide (c = c')) as [->|Hne]; [auto|].
    rewrite lookup_insert_ne in Hc' by done. auto.
  - intros c' deps d Hc' Hd. apply register_graph_edges.
    destruct (decide (c = c')) as [->|Hne].
    + rewrite lookup_insert_eq in Hc'. injection Hc' as <-. eauto.
    + rewrite lookup_insert_ne in Hc' by done. eauto.
Qed.

Lemma register_outcome c dependencies st :
  manager_wf (manager st) →
  (register c dependencies st = Some (Ok c, committed c dependencies st) ∧
   acyclic (_dependency_graph (manager (committed c dependencies st)))) ∨
  register c dependencies st
  = Some (Raise (CircularDependency c), committed c dependencies st).
Proof.
  intros Hwf. apply (manager_wf_committed c dependencies) in Hwf.
  destruct Hwf as [Hg _ _ _].
  unfold register. fold (committed c dependencies st).
  destruct (is_directed_acyclic_graph_sound _ Hg) as [[-> Hac] | ->]; auto.
Qed.

Lemma register_all_wf regs : ∀ st r st',
  manager_wf (manager st) →
  register_all regs st = Some (r, st') → manager_wf (manager st').
Proof.
  induction regs as [|[c deps] regs IH]; intros st r st' Hwf Hr; simpl in Hr.
  - by injection Hr as <- <-.
  - unfold bind in Hr. destruct (register_result c (Some deps) st) as [r1 Hr1].
    rewrite Hr1 in Hr. apply (manager_wf_committed c (Some deps)) in Hwf.
    destruct r1; [by eapply IH | by injection Hr as <- <-].
Qed.

Lemma register_all_acyclic regs : ∀ st st',
  manager_wf (manager st) → acyclic (_dependency_graph (manager st)) →
  register_all regs st = Some (Ok tt, st') →
  acyclic (_dependency_graph (manager st')).
Proof.
  induction regs as [|[c deps] regs IH]; intros st st' Hwf Hac Hr; simpl in Hr.
  - by injection Hr as <-.
  - unfold bind in Hr.
    destruct (register_outcome c (Some deps) st Hwf) as [[Hr1 Hac1] | Hr1];
      rewrite Hr1 in Hr; [|done].
    eapply IH; [|done..]. by apply manager_wf_committed.
Qed.

Lemma acyclic_empty : acyclic DiGraph.empty.
Proof. intros u Hp. inversion Hp as [? ? He | ? ? ? He _]; inversion He. Qed.

(** C1 (amended): after any run of [register] calls that all returned, the
    graph has no cycle, and a further [register] call whose edges close a
    cycle raises the circular-dependency [ValueError]; a call that returns
    leaves the graph without a cycle. *)
Theorem register_rejects_cycles regs st c dependencies :
  register_all regs initial_state = Some (Ok tt, st) →
  acyclic (_dependency_graph (manager st)) ∧
  (¬ acyclic (register_graph (_dependency_graph (manager st)) c (default [] dependencies)) →
     ∃ st', register c dependencies st = Some (Raise (CircularDependency c), st')) ∧
  (∀ r st', register c dependencies st = Some (Ok r, st') →
     acyclic (_dependency_graph (manager st'))).
Proof.
  intros Hregs.
  assert (Hwf : manager_wf (manager st)).
  { eapply (register_all_wf regs initial_state); [exact manager_wf_new | done]. }
  split_and!.
  - eapply (register_all_acyclic regs initial_state);
      [exact manager_wf_new | exact acyclic_empty | done].
  - intros Hcyc. destruct (register_outcome c dependencies st Hwf) as [[_ Hac] | Hr].
    + by destruct Hcyc.
    + eauto.
  - intros r st' Hr. destruct (register_outcome c dependencies st Hwf) as [[Hr' Hac] | Hr'].
    + rewrite Hr' in Hr. by injection Hr as <- <-.
    + rewrite Hr' in Hr. done.
Qed.

(** ** Start-up *)

Lemma is_cached_true st c : is_cached st c = true ↔ cached st c.
Proof.
  unfold is_cached, cached. destruct (_ !! c) as [[i|]|]; split; try done; eauto.
  - by intros [? [=]].
  - by intros [? [=]].
Qed.

Section Lifecycle.
Context `{UserCode}.

Lemma _get_instance_plain fuel y st r st' :
  _get_instance fuel y st = Some (r, st') →
  frames [] st st' ∧ (∀ i, r = Ok i → _instances (manager st') !! y = Some (Some i)).
Proof.
  intros Hg.
  destruct (_get_instance_frames fuel [] y st r st') as (Hf & _ & Hok); [| |done|done].
  - intros x Hx. by apply elem_of_nil in Hx.
  - intros x Hx. by apply elem_of_nil in Hx.
Qed.

Lemma _get_instance_cached fuel y st i :
  _instances (manager st) !! y = Some (Some i) →
  _get_instance (S fuel) y st = Some (Ok i, st).
Proof. intros Hy. simpl. by rewrite Hy. Qed.


Lemma startup_loop_frames fuel order :
  ∀ st r st', startup_loop fuel order st = Some (r, st') →
    frames [] st st' ∧ (r = Ok tt → ∀ c, c ∈ order → cached st' c).
Proof.
  induction order as [|c order IH]; intros st r st' Hl; simpl in Hl.
  - injection Hl as <- <-. split; [apply frames_refl|]. intros _ c Hc. by apply elem_of_nil in Hc.
  - unfold bind in Hl. destruct (_get_instance fuel c st) as [[[i|e] st1]|] eqn:Hg; [| |done].
    + destruct (_get_instance_plain _ _ _ _ _ Hg) as [Hf Hok].
      destruct (IH _ _ _ Hl) as [Hf' Hall].
      split; [by eapply frames_trans|]. intros Hr c' [->|Hc']%elem_of_cons; [|auto].
      exists i. apply Hf'. by apply Hok.
    + injection Hl as <- <-. by destruct (_get_instance_plain _ _ _ _ _ Hg).
Qed.




Lemma finish_ok e st r st' :
  finish e st = Some (Ok r, st') → e = DiGraph.Exhausted ∧ st' = st.
Proof. unfold finish. destruct e; simpl; [by intros [= <- <-] | done..]. Qed.



End Lifecycle.

(** ** Start-up on a manager that holds no instance *)


Lemma startup_events_cons c l :
  startup_events (c :: l) = EvInit c None :: EvSetup c None :: startup_events l.
Proof. done. Qed.


Lemma construction_order_startup_events l :
  construction_order (startup_events l) = l.
Proof. induction l as [|c l IH]; [done|]. simpl. by rewrite IH. Qed.

Section Fresh.
Context `{UserCode}.

Lemma resolve_deps_cached fuel ds :
  ∀ acc st r st1,
    (∀ d, d ∈ ds → cached st d) →
    resolve_deps (_get_instance fuel) ds acc st = Some (r, st1) →
    st1 = st ∧ ∃ kw, r = Ok kw.
Proof.
  induction ds as [|d ds IH]; intros acc st r st1 Hall Hr; simpl in Hr.
  - injection Hr as <- <-. eauto.
  - destruct (Hall d) as [i Hi]; [left|].
    destruct fuel as [|fuel]; [done|].
    unfold bind in Hr. rewrite (_get_instance_cached _ _ _ _ Hi) in Hr.
    destruct (param_name d); eapply IH; try done; intros d' Hd'; apply Hall; by right.
Qed.

Lemma instantiate_ok cls kw st i st1 :
  instantiate cls kw st = Some (Ok i, st1) →
  st1 = log (EvSetup cls None) (set_instance cls (Some i) (log (EvInit cls None) st)).
Proof.
  unfold instantiate. destruct (construct cls kw (history st)) as [gf|e]; [|done].
  destruct (setup_of _ _); [done|]. by intros [= <- <-].
Qed.

Lemma startup_loop_fresh fuel E :
  ∀ todo done st st',
    NoDup (done ++ todo) → respects E (done ++ todo) →
    (∀ c deps d, _dependencies (manager st) !! c = Some deps → d ∈ deps → (d, c) ∈ E) →
    (∀ c, cached st c ↔ c ∈ done) →
    startup_loop fuel todo st = Some (Ok tt, st') →
    history st' = history st ++ startup_events todo ∧
    (∀ c, cached st' c ↔ c ∈ done ++ todo).
Proof.
  induction todo as [|c todo IH]; intros done st st' Hnd Hresp Hedges Hcached Hl;
    simpl in Hl.
  - injection Hl as <-. rewrite !app_nil_r. done.
  - unfold bind in Hl.
    destruct (_get_instance fuel c st) as [[[i|e] st1]|] eqn:Hg; [|done..].
    assert (HcD : c ∉ done).
    { apply NoDup_app in Hnd as (_ & Hdisj & _). intros Hc. apply (Hdisj c Hc). left. }
    destruct fuel as [|fuel]; [done|]. simpl in Hg.
    destruct (_instances (manager st) !! c) as [[inst|]|] eqn:Hc; [| |done].
    { exfalso. apply HcD, Hcached. by exists inst. }
    destruct (_dependencies (manager st) !! c) as [ds|] eqn:Hds; [|done].
    unfold bind in Hg.
    destruct (resolve_deps (_get_instance fuel) ds [] st) as [[[kw|e] st0]|] eqn:Hr;
      [|done..].
    destruct (resolve_deps_cached _ _ _ _ _ _ (λ d Hd, proj2 (Hcached d)
                (Hresp done c todo d eq_refl (Hedges c ds d Hds Hd))) Hr) as [-> _].
    apply instantiate_ok in Hg. subst st1.
    match type of Hl with
    | startup_loop _ _ ?s = _ => destruct (IH (done ++ [c]) s st') as [Hh Hc']
    end.
    + by rewrite <- (assoc_L (++)).
    + by rewrite <- (assoc_L (++)).
    + done.
    + intros c'. unfold cached. simpl. rewrite elem_of_app, list_elem_of_singleton.
      destruct (decide (c = c')) as [->|Hne].
      * rewrite lookup_insert_eq. split; eauto.
      * rewrite lookup_insert_ne by done. rewrite <- Hcached. unfold cached.
        split; [auto | by intros [?|?]].
    + done.
    + split.
      * rewrite Hh, startup_events_cons. simpl. by rewrite <- !(assoc_L (++)).
      * intros c'. rewrite Hc', <- (assoc_L (++)). done.
Qed.

(** A start-up that returns on a manager with no instance constructs and
    sets up the classes one by one in topological order. *)
Lemma startup_fresh fuel st st1 :
  manager_wf (manager st) →
  (∀ c, ¬ cached st c) →
  startup fuel st = Some (Ok tt, st1) →
  ∃ order,
    DiGraph.topological_sort (_dependency_graph (manager st)) = (order, DiGraph.Exhausted) ∧
    NoDup order ∧
    respects (DiGraph.edges (_dependency_graph (manager st))) order ∧
    (∀ v, v ∈ order ↔ v ∈ DiGraph.nodes (_dependency_graph (manager st))) ∧
    history st1 = history st ++ startup_events order ∧
    (∀ c, cached st1 c ↔ c ∈ order) ∧
    frames [] st st1.
Proof.
  intros Hwf Hfresh Hs. unfold startup in Hs.
  destruct (DiGraph.topological_sort (_dependency_graph (manager st))) as [order e] eqn:Hts.
  unfold bind in Hs.
  destruct (startup_loop fuel order st) as [[[[]|e'] st']|] eqn:Hl; [|done..].
  destruct (finish_ok _ _ _ _ Hs) as [-> <-].
  destruct (topological_sort_sound _ _ _ (mw_graph _ Hwf) Hts) as [_ Hex].
  destruct (Hex eq_refl) as (Hresp & Hnd & Hnodes).
  destruct (startup_loop_frames _ _ _ _ _ Hl) as [Hf _].
  destruct (startup_loop_fresh fuel _ order [] st st1 Hnd Hresp (mw_edges _ Hwf))
    as [Hh Hc]; [|done|].
  { intros c. split; [by intros ?%Hfresh | by intros ?%elem_of_nil]. }
  exists order. split_and!; done.
Qed.

End Fresh.

(** ** Shut-down *)

Lemma filter_ext_in {A} (P Q : A → Prop) `{∀ x, Decision (P x)} `{∀ x, Decision (Q x)}
    (l : list A) :
  (∀ x, x ∈ l → P x ↔ Q x) → filter P l = filter Q l.
Proof.
  induction l as [|x l IH]; intros Hext; [done|].
  rewrite !filter_cons.
  rewrite IH by (intros y Hy; apply Hext; by right).
  destruct (decide (P x)) as [HP|HP], (decide (Q x)) as [HQ|HQ]; try done.
  - destruct HQ. apply Hext; [left | done].
  - destruct HP. apply Hext; [left | done].
Qed.

Lemma filter_all {A} (P : A → Prop) `{∀ x, Decision (P x)} (l : list A) :
  (∀ x, x ∈ l → P x) → filter P l = l.
Proof.
  induction l as [|x l IH]; intros Hall; [done|].
  rewrite filter_cons_True by (apply Hall; left).
  rewrite IH; [done|]. intros y Hy. apply Hall. by right.
Qed.

Lemma manager_wf_frames S st st' :
  frames S st st' → manager_wf (manager st) → manager_wf (manager st').
Proof.
  intros [Hd Hg Hc Ha Hu _] [Hwg Hdom Hnodes Hedges].
  assert (Hsome : ∀ c, is_Some (_instances (manager st') !! c)
                       ↔ is_Some (_instances (manager st) !! c)).
  { intros c. rewrite <- !not_eq_None_Some. by rewrite Hu. }
  split.
  - by rewrite Hg.
  - intros c. by rewrite Hsome, Hd.
  - intros c. rewrite Hsome, Hg. apply Hnodes.
  - intros c deps d. rewrite Hd, Hg. apply Hedges.
Qed.

Section Shutdown.
Context `{UserCode}.

Lemma shutdown_loop_trace l :
  ∀ st r st', NoDup l → shutdown_loop l st = Some (r, st') →
    ∃ evs,
      history st' = history st ++ evs ∧
      construction_order evs = [] ∧
      (∀ c, c ∉ l → _instances (manager st') !! c = _instances (manager st) !! c) ∧
      teardown_order evs `prefix_of` filter (λ c, is_cached st c = true) l ∧
      (r = Ok tt →
         teardown_order evs = filter (λ c, is_cached st c = true) l ∧
         ∀ c, c ∈ l → absent st' c).
Proof.
  induction l as [|c l IH]; intros st r st' Hnd Hl; simpl in Hl.
  - injection Hl as <- <-. exists []. rewrite app_nil_r. split_and!; try done.
    intros _. split; [done|]. intros c Hc. by apply elem_of_nil in Hc.
  - apply NoDup_cons in Hnd as [Hcl Hnd]. rewrite filter_cons.
    destruct (_instances (manager st) !! c) as [[inst|]|] eqn:Hc.
    + rewrite decide_True by (unfold is_cached; by rewrite Hc).
      destruct (teardown_of inst (history st)) as [e|].
      * injection Hl as <- <-. exists [EvTeardown c (Some e)]. split_and!; try done.
        simpl. apply prefix_cons, prefix_nil.
      * destruct (IH _ _ _ Hnd Hl) as (evs & Hh & Hco & Hframe & Hpre & Hok).
        assert (Hfil : filter (λ c0, is_cached
                          (set_instance c None (log (EvTeardown c None) st)) c0 = true) l
                       = filter (λ c0, is_cached st c0 = true) l).
        { apply filter_ext_in. intros x Hx. unfold is_cached. simpl.
          rewrite lookup_insert_ne; [done|]. by intros ->. }
        rewrite Hfil in Hpre, Hok.
        exists (EvTeardown c None :: evs). split_and!.
        -- rewrite Hh. simpl. by rewrite <- (assoc_L (++)).
        -- done.
        -- intros c' Hc'. rewrite Hframe by set_solver. simpl.
           rewrite lookup_insert_ne; [done|]. set_solver.
        -- simpl. by apply prefix_cons.
        -- intros Hr. destruct (Hok Hr) as [Ho Hab]. split; [simpl; by rewrite Ho|].
           intros c' [->|Hc']%elem_of_cons; [|auto].
           unfold absent. rewrite Hframe by done. simpl. apply lookup_insert_eq.
    + rewrite decide_False by (unfold is_cached; by rewrite Hc).
      destruct (IH _ _ _ Hnd Hl) as (evs & Hh & Hco & Hframe & Hpre & Hok).
      exists evs. split_and!; try done.
      * intros c' Hc'. apply Hframe. set_solver.
      * intros Hr. destruct (Hok Hr) as [Ho Hab]. split; [done|].
        intros c' [->|Hc']%elem_of_cons; [|auto].
        unfold absent. by rewrite Hframe.
    + rewrite decide_False by (unfold is_cached; by rewrite Hc).
      injection Hl as <- <-. exists []. rewrite app_nil_r. split_and!; try done.
      apply prefix_nil.
Qed.

Lemma shutdown_trace st r st' :
  manager_wf (manager st) → shutdown st = Some (r, st') →
  ∃ evs,
    history st' = history st ++ evs ∧
    construction_order evs = [] ∧
    teardown_order evs `prefix_of` shutdown_visits st ∧
    (r = Ok tt →
       teardown_order evs = shutdown_visits st ∧
       ∀ c, c ∈ DiGraph.nodes (_dependency_graph (manager st)) → absent st' c).
Proof.
  intros Hwf Hs. unfold shutdown, shutdown_visits in *.
  destruct (DiGraph.topological_sort (_dependency_graph (manager st))) as [order e] eqn:Hts.
  destruct (topological_sort_sound _ _ _ (mw_graph _ Hwf) Hts) as [_ Hex].
  unfold bind, finish in Hs. simpl.
  destruct e; simpl in Hs.
  - destruct (Hex eq_refl) as (_ & Hnd & Hnodes).
    rewrite <- (reverse_Permutation order) in Hnd.
    destruct (shutdown_loop_trace _ _ _ _ Hnd Hs) as (evs & Hh & Hco & _ & Hpre & Hok).
    exists evs. split_and!; try done.
    intros Hr. destruct (Hok Hr) as [Ho Hab]. split; [done|].
    intros c Hc. apply Hab, elem_of_reverse, Hnodes, Hc.
  - injection Hs as <- <-. exists []. rewrite app_nil_r. split_and!; try done.
    apply prefix_nil.
  - injection Hs as <- <-. exists []. rewrite app_nil_r. split_and!; try done.
    apply prefix_nil.
Qed.

(** C6 (amended): [shutdown] calls [teardown] on the cached instances in
    reverse topological order of the graph and resets each entry it has
    torn down; when the instances were constructed by a [startup] on a
    manager that held none, this is the exact reverse of the order in which
    they were constructed.  A [teardown] that raises stops the run. *)
Theorem shutdown_reverses_startup fuel st st1 r st2 :
  manager_wf (manager st) →
  (∀ c, ¬ cached st c) →
  startup fuel st = Some (Ok tt, st1) →
  shutdown st1 = Some (r, st2) →
  ∃ ev1 ev2,
    history st1 = history st ++ ev1 ∧
    history st2 = history st1 ++ ev2 ∧
    construction_order ev2 = [] ∧
    shutdown_visits st1 = reverse (construction_order ev1) ∧
    teardown_order ev2 `prefix_of` reverse (construction_order ev1) ∧
    (r = Ok tt →
       teardown_order ev2 = reverse (construction_order ev1) ∧
       ∀ c, c ∈ construction_order ev1 → absent st2 c).
Proof.
  intros Hwf Hfresh Hs Hsh.
  destruct (startup_fresh _ _ _ Hwf Hfresh Hs)
    as (order & Hts & Hnd & Hresp & Hnodes & Hh & Hc & Hf).
  pose proof (manager_wf_frames _ _ _ Hf Hwf) as Hwf1.
  destruct (shutdown_trace _ _ _ Hwf1 Hsh) as (ev2 & Hh2 & Hco & Hpre & Hok).
  assert (Hvis : shutdown_visits st1 = reverse order).
  { unfold shutdown_visits. rewrite (fr_graph _ _ _ Hf), Hts. simpl.
    apply filter_all. intros x Hx. apply is_cached_true, Hc.
    by apply elem_of_reverse. }
  exists (startup_events order), ev2.
  rewrite construction_order_startup_events, <- Hvis.
  split_and!; try done.
  intros Hr. destruct (Hok Hr) as [Ho Hab]. split; [done|].
  intros c Hc'. apply Hab. rewrite (fr_graph _ _ _ Hf). by apply Hnodes.
Qed.

(** C7 (amended): [depends] resolves the instance (or takes it from the
    cache) when [depends] itself is called; the accessor it returns gives
    back that same instance, or what its [get_fn] returns, whenever it is
    invoked, and touches nothing. *)
Theorem depends_resolves_when_called fuel cls st d st' :
  depends fuel cls st = Some (Ok d, st') →
  ∃ inst v,
    _get_instance fuel cls st = Some (Ok inst, st') ∧
    _instances (manager st') !! cls = Some (Some inst) ∧
    get_result inst = Ok v ∧
    ∀ st'', call_accessor d st'' = Some (Ok v, st'').
Proof.
  unfold depends, bind. intros Hd.
  destruct (_get_instance fuel cls st) as [[[inst|e] st1]|] eqn:Hg; [|done..].
  destruct (_get_instance_plain _ _ _ _ _ Hg) as [_ Hok].
  unfold get_result.
  destruct (get_fn inst) as [[f|]|e] eqn:Hfn; [| |done]; injection Hd as <- <-.
  - exists inst, (VGetFn f). rewrite Hfn. split_and!; [done | by apply Hok | done | done].
  - exists inst, (VInstance inst). rewrite Hfn. split_and!; [done | by apply Hok | done | done].
Qed.

End Shutdown.

(** ** Proxies *)

Lemma proxy_deleted_getattr {Val} (val_getattr : Val → string → Result Val) fuel :
  ∀ item,
    GlobalObjectProxy.__getattr__ val_getattr fuel (GlobalObjectProxy.mk None) item = None.
Proof.
  induction fuel as [|fuel IH]; intros item; [done|].
  simpl. unfold GlobalObjectProxy.getattr_with, GlobalObjectProxy.read_instance_with.
  simpl. by rewrite IH.
Qed.


(** ** Settings *)


Section Settings.
Context {Val : Type} `{PyStr}.
Context (py_none : Val) (val_str : string → Val) (val_tuple : list string → Val).
Context (val_getattr val_getitem : Val → string → Result Val).
Context (val_call : Val → list Val → Result Val).
Context (class_attr : string → option Val).



End Settings.

(** * The theorems on sample managers *)

Ltac in_list :=
  solve [repeat first [apply list_elem_of_here | apply list_elem_of_further]].

Lemma chain_abc_registered :
  register_all [("A", []); ("B", ["A"]); ("C", ["B"])] initial_state = Some (Ok tt, chain_abc).
Proof. vm_compute. reflexivity. Qed.

Lemma manager_wf_chain_abc : manager_wf (manager chain_abc).
Proof.
  eapply (register_all_wf _ initial_state); [exact manager_wf_new | exact chain_abc_registered].
Qed.

Lemma fresh_chain_abc : ∀ c, ¬ cached chain_abc c.
Proof.
  intros c [i Hi]. change (_instances (manager chain_abc)) with
    (<["C" := None]> (<["B" := None]> (<["A" := None]> (∅ : gmap Cls (option Instance))))) in Hi.
  repeat (apply lookup_insert_Some in Hi as [[_ [=]] | [_ Hi]]).
  by rewrite lookup_empty in Hi.
Qed.

Lemma chain_started_ok : @startup plain_code 2 chain_abc = Some (Ok tt, chain_started).
Proof. vm_compute. reflexivity. Qed.

Lemma register_rejects_cycles_witness :
  register_all [("A", ["B"])] initial_state = Some (Ok tt, a_needs_b) ∧
  acyclic (_dependency_graph (manager a_needs_b)) ∧
  ∃ st', register "B" (Some ["A"]) a_needs_b = Some (Raise (CircularDependency "B"), st').
Proof.
  assert (Hregs : register_all [("A", ["B"])] initial_state = Some (Ok tt, a_needs_b))
    by (vm_compute; reflexivity).
  destruct (register_rejects_cycles [("A", ["B"])] a_needs_b "B" (Some ["A"]) Hregs)
    as (Hac & Hrej & _).
  split_and!; [done..|]. apply Hrej. intros Hcyc. apply (Hcyc "A").
  assert (He : DiGraph.edges (_dependency_graph (manager a_needs_b)) = [("B", "A")])
    by (vm_compute; reflexivity).
  eapply tc_l; [|apply tc_once]; apply register_graph_edges.
  - right. exists "A". split; [in_list | done].
  - left. rewrite He. in_list.
Defined.

(** C1, as stated, fails: the rejected call has registered ["B"], has
    added its edge, and has left a cycle in the graph, so that every later
    [register] call raises too. *)
Lemma rejected_registration_is_committed :
  ∃ st',
    register "B" (Some ["A"]) a_needs_b = Some (Raise (CircularDependency "B"), st') ∧
    _instances (manager a_needs_b) !! "B" = None ∧
    _instances (manager st') !! "B" = Some None ∧
    _dependencies (manager st') !! "B" = Some ["A"] ∧
    DiGraph.edges (_dependency_graph (manager a_needs_b)) = [("B", "A")] ∧
    DiGraph.edges (_dependency_graph (manager st')) = [("B", "A"); ("A", "B")] ∧
    ¬ acyclic (_dependency_graph (manager st')) ∧
    manager st' ≠ manager a_needs_b ∧
    ∃ st'', register "C" None st' = Some (Raise (CircularDependency "C"), st'').
Proof.
  exists (committed "B" (Some ["A"]) a_needs_b).
  assert (He : DiGraph.edges (_dependency_graph (manager (committed "B" (Some ["A"]) a_needs_b)))
               = [("B", "A"); ("A", "B")]) by (vm_compute; reflexivity).
  split_and!; try (vm_compute; reflexivity).
  - intros Hac. apply (Hac "A"). unfold reaches. rewrite He.
    eapply tc_l; [|apply tc_once]; in_list.
  - intros Heq. apply (f_equal (λ m, _instances m !! "B")) in Heq.
    vm_compute in Heq. discriminate.
  - eexists. vm_compute. reflexivity.
Qed.

Lemma constructor_failure_not_cached_witness :
  absent flaky_registered "Flaky" ∧
  ∃ st2,
    @get (failing_constructor boom) 2 "Flaky" flaky_registered = Some (Raise boom, st2) ∧
    absent st2 "Flaky".
Proof.
  assert (Habs : absent flaky_registered "Flaky") by (vm_compute; reflexivity).
  split; [done|].
  destruct (@constructor_failure_not_cached (failing_constructor boom) 1 "Flaky"
              flaky_registered ["Config"] [("config", mkInstance "Config" 0 (Ok None))]
              (state_after (@_get_instance (failing_constructor boom) 1 "Config")
                 flaky_registered) Habs)
    as [Hctor _]; [vm_compute; reflexivity | vm_compute; reflexivity |].
  destruct (Hctor boom) as (st2 & Hget & _ & Hab & _); [vm_compute; reflexivity|].
  exists st2. split; [exact Hget | exact Hab].
Defined.

(** C2, as stated, fails when it is [setup] that raises: the instance is
    stored before [setup] is called and stays in the cache, and the next
    [get] returns it without another [setup]. *)
Lemma setup_failure_is_cached :
  ∃ inst st',
    @get (failing_setup boom) 2 "Flaky" flaky_registered = Some (Raise boom, st') ∧
    _instances (manager st') !! "Flaky" = Some (Some inst) ∧
    ¬ absent st' "Flaky" ∧
    @get (failing_setup boom) 2 "Flaky" st' = Some (Ok (VInstance inst), st').
Proof.
  exists (mkInstance "Flaky" 2 (Ok None)),
    (state_after (@get (failing_setup boom) 2 "Flaky") flaky_registered).
  split_and!; try (vm_compute; reflexivity).
  intros Hab. vm_compute in Hab. discriminate.
Qed.

Lemma only_TypeError_is_wrapped_witness :
  ∃ st2,
    @get (failing_constructor bad_call) 2 "Flaky" flaky_registered
    = Some (Raise (ExnFrom RuntimeError "Failed to instantiate Flaky" bad_call), st2).
Proof.
  destruct (@only_TypeError_is_wrapped (failing_constructor bad_call) 1 "Flaky"
              flaky_registered ["Config"] [("config", mkInstance "Config" 0 (Ok None))]
              (state_after (@_get_instance (failing_constructor bad_call) 1 "Config")
                 flaky_registered) bad_call)
    as (surfaced & st2 & Hget & _ & Hwrap & _);
    [vm_compute; reflexivity | vm_compute; reflexivity | vm_compute; reflexivity
    | left; vm_compute; reflexivity |].
  destruct (Hwrap eq_refl) as [-> _]. exists st2. exact Hget.
Defined.

(** C3, as stated, fails: an exception that is not a [TypeError] reaches
    the caller as it is, not as the "Failed to instantiate"
    [RuntimeError], and carries no cause. *)
Lemma other_exceptions_are_not_wrapped :
  ∃ st',
    @get (failing_constructor boom) 2 "Flaky" flaky_registered = Some (Raise boom, st') ∧
    exc_type boom ≠ RuntimeError ∧
    exc_cause boom = None ∧
    ∃ st'',
      @get (failing_setup boom) 2 "Flaky" flaky_registered = Some (Raise boom, st'').
Proof.
  eexists. split_and!; [vm_compute; reflexivity | done | done |].
  eexists. vm_compute. reflexivity.
Qed.

(** C4: the usage example of the manager's docstring, run on the code.
    [startup] returns and both classes are cached; [get(Config)] returns the
    cached instance and constructs nothing; [get(APIClient)] constructs
    nothing either, but raises [AttributeError] where the docstring has it
    return the client, because [get] reads [instance.get_fn]. *)
Theorem documented_client_cannot_be_fetched :
  @startup docstring_code 2 docstring_registered = Some (Ok tt, docstring_started) ∧
  _instances (manager docstring_started) !! "Config"
  = Some (Some (mkInstance "Config" 0 (Ok None))) ∧
  _instances (manager docstring_started) !! "APIClient"
  = Some (Some (mkInstance "APIClient" 2 (Raise (no_attribute "APIClient" "get_fn")))) ∧
  @get docstring_code 2 "Config" docstring_started
  = Some (Ok (VInstance (mkInstance "Config" 0 (Ok None))), docstring_started) ∧
  @get docstring_code 2 "APIClient" docstring_started
  = Some (Raise (Exn AttributeError "'APIClient' object has no attribute 'get_fn'"),
          docstring_started).
Proof. split_and!; vm_compute; reflexivity. Qed.


Lemma shutdown_reverses_startup_witness :
  ∃ st2 ev2,
    @shutdown plain_code chain_started = Some (Ok tt, st2) ∧
    history st2 = history chain_started ++ ev2 ∧
    construction_order (history chain_started) = ["A"; "B"; "C"] ∧
    teardown_order ev2 = ["C"; "B"; "A"] ∧
    absent st2 "A" ∧ absent st2 "B" ∧ absent st2 "C".
Proof.
  assert (Hsh : @shutdown plain_code chain_started
                = Some (Ok tt, state_after (@shutdown plain_code) chain_started))
    by (vm_compute; reflexivity).
  destruct (@shutdown_reverses_startup plain_code 2 chain_abc chain_started (Ok tt) _
              manager_wf_chain_abc fresh_chain_abc chain_started_ok Hsh)
    as (ev1 & ev2 & H1 & H2 & _ & _ & _ & Hok).
  destruct (Hok eq_refl) as [Horder Habs].
  assert (Hev1 : ev1 = history chain_started) by (rewrite H1; reflexivity).
  subst ev1.
  assert (Hco : construction_order (history chain_started) = ["A"; "B"; "C"])
    by (vm_compute; reflexivity).
  rewrite Hco in Horder, Habs.
  exists (state_after (@shutdown plain_code) chain_started), ev2.
  split_and!; [done | done | done | exact Horder | apply Habs; in_list..].
Defined.

(** C6, as stated, fails for instances built on demand: ["B"] is
    constructed before ["A"], yet [shutdown] tears ["B"] down first, in
    reverse topological order. *)
Lemma teardown_follows_the_graph_not_the_construction :
  construction_order (history lazily_built) = ["B"; "A"] ∧
  ∃ st2,
    @shutdown plain_code lazily_built = Some (Ok tt, st2) ∧
    history st2 = history lazily_built ++ [EvTeardown "B" None; EvTeardown "A" None] ∧
    teardown_order [EvTeardown "B" None; EvTeardown "A" None]
    ≠ reverse (construction_order (history lazily_built)).
Proof.
  split; [vm_compute; reflexivity|].
  eexists. split_and!; [vm_compute; reflexivity | vm_compute; reflexivity |].
  vm_compute. discriminate.
Qed.

Lemma depends_resolves_when_called_witness :
  ∃ inst st',
    @depends plain_code 1 "A" two_independent = Some (Ok (mkDepends (AccLambda inst)), st') ∧
    _instances (manager st') !! "A" = Some (Some inst) ∧
    ∀ st'', @call_accessor (mkDepends (AccLambda inst)) st''
            = Some (Ok (VInstance inst), st'').
Proof.
  assert (Hd : @depends plain_code 1 "A" two_independent
               = Some (Ok (mkDepends (AccLambda (mkInstance "A" 0 (Ok None)))),
                       state_after (@depends plain_code 1 "A") two_independent))
    by (vm_compute; reflexivity).
  destruct (@depends_resolves_when_called plain_code 1 "A" two_independent _ _ Hd)
    as (inst & v & Hg & Hc & Hv & Hacc).
  assert (inst = mkInstance "A" 0 (Ok None)) as ->.
  { vm_compute in Hc. by injection Hc as <-. }
  injection Hv as <-.
  eexists _, _. split_and!; [exact Hd | exact Hc | exact Hacc].
Defined.

(** C7, as stated, fails: [depends] itself constructs and sets up the
    instance, and the accessor never resolves anything: after a
    [shutdown] it still returns the instance that was torn down, and the
    cache entry stays absent. *)
Lemma depends_resolves_at_once :
  ∃ inst st' st'',
    history two_independent = [] ∧
    @depends plain_code 1 "A" two_independent = Some (Ok (mkDepends (AccLambda inst)), st') ∧
    history st' = [EvInit "A" None; EvSetup "A" None] ∧
    @shutdown plain_code st' = Some (Ok tt, st'') ∧
    absent st'' "A" ∧
    @call_accessor (mkDepends (AccLambda inst)) st'' = Some (Ok (VInstance inst), st'') ∧
    absent (state_after (@call_accessor (mkDepends (AccLambda inst))) st'') "A".
Proof.
  eexists _, _, _.
  split_and!; [vm_compute; reflexivity | vm_compute; reflexivity | vm_compute; reflexivity
              | vm_compute; reflexivity | vm_compute; reflexivity | reflexivity
              | vm_compute; reflexivity].
Qed.

(** * Further properties *)

(** ** [topological_sort] reports only real cycles *)

Lemma chain_cons R u l :
  chain R l → (∀ w, head l = Some w → R u w) → chain R (u :: l).
Proof. destruct l as [|w l]; [done|]. intros Hc Hw. split; [by apply Hw | done]. Qed.

Lemma chain_app_r R l1 l2 : chain R (l1 ++ l2) → chain R l2.
Proof.
  induction l1 as [|a l1 IH]; [done|]. intros Hc. apply IH.
  simpl in Hc. destruct (l1 ++ l2); [done | by destruct Hc].
Qed.

Lemma chain_tc R l : ∀ a b, chain R (a :: l ++ [b]) → tc R a b.
Proof.
  induction l as [|x l IH]; intros a b Hc.
  - apply tc_once. by destruct Hc.
  - destruct Hc as [Hax Hc]. eapply tc_l; [done | by apply IH].
Qed.

Lemma chain_app_l R l1 l2 : chain R (l1 ++ l2) → chain R l1.
Proof.
  induction l1 as [|a l1 IH]; [done|]. intros Hc.
  destruct l1 as [|b l1]; [done|]. destruct Hc as [Hab Hc]. split; [done | by apply IH].
Qed.

Lemma repeated_element (l : list Cls) :
  ¬ NoDup l → ∃ x l1 l2 l3, l = l1 ++ x :: l2 ++ x :: l3.
Proof.
  induction l as [|a l IH]; intros Hnd.
  - destruct Hnd. constructor.
  - destruct (decide (a ∈ l)) as [Ha|Ha].
    + apply list_elem_of_split in Ha as (l2 & l3 & ->). by exists a, [], l2, l3.
    + destruct IH as (x & l1 & l2 & l3 & ->).
      { intros Hl. apply Hnd. by constructor. }
      by exists x, (a :: l1), l2, l3.
Qed.

(** Going back along predecessors inside a finite set must come round. *)
Lemma predecessors_cycle (R : relation Cls) (X : list Cls) v :
  v ∈ X → (∀ w, w ∈ X → ∃ u, u ∈ X ∧ R u w) → ∃ x, tc R x x.
Proof.
  intros Hv Hpred.
  assert (Hbuild : ∀ n, ∃ l, length l = S n ∧ (∀ x, x ∈ l → x ∈ X) ∧ chain R l).
  { induction n as [|n (l & Hlen & Hin & Hc)].
    - exists [v]. split_and!; [done | | done].
      intros x Hx. apply list_elem_of_singleton in Hx. by subst.
    - destruct l as [|w l]; [done|].
      destruct (Hpred w) as (u & Hu & Huw); [apply Hin; left|].
      exists (u :: w :: l). split_and!.
      + simpl in *. lia.
      + intros x [->|Hx]%elem_of_cons; auto.
      + by split. }
  destruct (Hbuild (length X)) as (l & Hlen & Hin & Hc).
  destruct (repeated_element l) as (x & l1 & l2 & l3 & ->).
  { intros Hnd. pose proof (submseteq_length _ _ (NoDup_submseteq _ _ Hnd Hin)). lia. }
  exists x. apply (chain_tc R l2).
  apply chain_app_r in Hc.
  replace (x :: l2 ++ x :: l3) with ((x :: l2 ++ [x]) ++ l3) in Hc
    by (simpl; by rewrite <- (assoc_L (++))).
  by apply chain_app_l in Hc.
Qed.

Section KahnComplete.
Context (g : DiGraph.t) (Hwf : graph_wf g).

Lemma kahn_inv_generations_final fuel :
  ∀ zero P m gs e,
    kahn_inv g P [] zero m →
    DiGraph.generations fuel g zero m = Some (gs, e) →
    ∃ m', kahn_inv g (P ++ concat gs) [] [] m' ∧
          (e = DiGraph.Unfeasible → m' ≠ ∅).
Proof.
  induction fuel as [|fuel IH]; intros [|n zero] P m gs e Hinv Hgen; simpl in Hgen;
    try discriminate.
  1, 2: injection Hgen as <- <-; exists m; simpl; rewrite app_nil_r; split; [done|];
    by case_decide.
  destruct (kahn_inv_scan g Hwf (n :: zero) P [] m) as (m' & z' & Hscan & Hinv').
  { by rewrite app_nil_r. }
  simpl in Hscan. rewrite Hscan in Hgen.
  destruct (DiGraph.generations fuel g z' m') as [[gs' e']|] eqn:Hrec; [|done].
  injection Hgen as <- <-.
  destruct (IH _ _ _ _ _ Hinv' Hrec) as (m'' & Hfin & Hne).
  exists m''. simpl. by rewrite <- (assoc_L (++)) in Hfin.
Qed.

(** When the loop stops with counts left over, the nodes that still have
    a count lie on or behind a cycle. *)
Lemma kahn_stuck_cycle P m :
  kahn_inv g P [] [] m → m ≠ ∅ → ¬ acyclic g.
Proof.
  intros [Hnd Hmap _ _ Hcover _ _] Hne Hac.
  apply map_choose in Hne as (v & d & Hv).
  destruct (predecessors_cycle (λ u w, (u, w) ∈ DiGraph.edges g) (map_to_list m).*1 v)
    as [x Hx].
  - apply list_elem_of_fmap. exists (v, d). split; [done|]. by apply elem_of_map_to_list.
  - intros w Hw. apply list_elem_of_fmap in Hw as ([w' dw] & -> & Hw).
    apply elem_of_map_to_list in Hw. simpl.
    destruct (Hmap w' dw Hw) as (Hd & Hpos & _).
    unfold occ in Hd. simpl in Hd.
    destruct (filter (λ e, e.2 = w' ∧ e.1 ∉ P) (DiGraph.edges g)) as [|[a b] l] eqn:Hf.
    { unfold pending in Hd. rewrite Hf in Hd. simpl in Hd. lia. }
    assert (Hab : (a, b) ∈ filter (λ e, e.2 = w' ∧ e.1 ∉ P) (DiGraph.edges g))
      by (rewrite Hf; left).
    apply list_elem_of_filter in Hab as [[Hb HaP] Hab]. simpl in *. subst b.
    exists a. split; [|done].
    destruct Hwf as [_ Hcl]. destruct (Hcl _ _ Hab) as [HaN _].
    destruct (Hcover a HaN) as [?|[HF|[da Hda]]]; [done | by apply elem_of_nil in HF |].
    apply list_elem_of_fmap. exists (a, da). split; [done|]. by apply elem_of_map_to_list.
  - by apply (Hac x).
Qed.

End KahnComplete.

Lemma topological_sort_complete g :
  graph_wf g → acyclic g → (DiGraph.topological_sort g).2 = DiGraph.Exhausted.
Proof.
  intros Hwf Hac.
  destruct (DiGraph.topological_sort g) as [order e] eqn:Hts.
  destruct (topological_sort_sound g order e Hwf Hts) as [Hne _].
  simpl. destruct e; [done| |done]. exfalso.
  unfold DiGraph.topological_sort, DiGraph.topological_generations in Hts.
  destruct (generations_returns g (S (size (DiGraph.initial_indegree_map g)))
              (DiGraph.initial_zero_indegree g) (DiGraph.initial_indegree_map g))
    as [[gs e'] Hg]; [lia|].
  rewrite Hg in Hts. simpl in Hts. injection Hts as <- ->.
  destruct (kahn_inv_generations_final g Hwf _ _ _ _ _ _ (kahn_inv_initial g Hwf) Hg)
    as (m' & Hfin & Hne').
  exact (kahn_stuck_cycle g Hwf _ _ Hfin (Hne' eq_refl) Hac).
Qed.

Lemma is_directed_acyclic_graph_iff g :
  graph_wf g →
  (DiGraph.is_directed_acyclic_graph g = Ok true ↔ acyclic g) ∧
  (DiGraph.is_directed_acyclic_graph g = Ok false ↔ ¬ acyclic g).
Proof.
  intros Hwf.
  destruct (is_directed_acyclic_graph_sound g Hwf) as [[Ht Hac] | Hf].
  - rewrite Ht. split; split; done.
  - rewrite Hf. assert (Hn : ¬ acyclic g).
    { intros Hac. pose proof (topological_sort_complete g Hwf Hac) as He.
      unfold DiGraph.is_directed_acyclic_graph in Hf. by rewrite He in Hf. }
    split; split; done.
Qed.

(** ** Registration, completed *)

Lemma reaches_register_graph g c deps u v :
  reaches g u v → reaches (register_graph g c deps) u v.
Proof.
  induction 1 as [u v Huv | u w v Huw _ IH].
  - apply tc_once. apply register_graph_edges. by left.
  - eapply tc_l; [|exact IH]. apply register_graph_edges. by left.
Qed.

(** X1: [register] returns exactly when the graph with the new node and
    edges has no cycle, and raises the circular-dependency [ValueError]
    exactly when it has one; in both cases the registration is stored. *)
Theorem register_returns_iff_acyclic c dependencies st :
  manager_wf (manager st) →
  (acyclic (register_graph (_dependency_graph (manager st)) c (default [] dependencies)) →
     register c dependencies st = Some (Ok c, committed c dependencies st)) ∧
  (¬ acyclic (register_graph (_dependency_graph (manager st)) c (default [] dependencies)) →
     register c dependencies st
     = Some (Raise (CircularDependency c), committed c dependencies st)).
Proof.
  intros Hwf.
  assert (Hreg : register c dependencies st
                 = match DiGraph.is_directed_acyclic_graph
                           (_dependency_graph (manager (committed c dependencies st))) with
                   | Raise e => Some (Raise e, committed c dependencies st)
                   | Ok false => Some (Raise (CircularDependency c), committed c dependencies st)
                   | Ok true => Some (Ok c, committed c dependencies st)
                   end) by reflexivity.
  apply (manager_wf_committed c dependencies) in Hwf. destruct Hwf as [Hg _ _ _].
  destruct (is_directed_acyclic_graph_iff _ Hg) as [[_ Hdag] [_ Hcyc]].
  split; intros Hac; rewrite Hreg.
  - by rewrite (Hdag Hac).
  - by rewrite (Hcyc Hac).
Qed.

(** X2: once the graph has a cycle, every [register] call raises the
    circular-dependency error, whatever class and dependencies it names. *)
Theorem cyclic_manager_rejects_everything c dependencies st :
  manager_wf (manager st) →
  ¬ acyclic (_dependency_graph (manager st)) →
  register c dependencies st
  = Some (Raise (CircularDependency c), committed c dependencies st) ∧
  ¬ acyclic (_dependency_graph (manager (committed c dependencies st))).
Proof.
  intros Hwf Hcyc.
  assert (Hcyc' : ¬ acyclic (register_graph (_dependency_graph (manager st)) c
                               (default [] dependencies))).
  { intros Hac. apply Hcyc. intros u Hu. apply (Hac u). by apply reaches_register_graph. }
  split; [|done].
  destruct (register_outcome c dependencies st Hwf) as [[_ Hac] | Hr]; [|done].
  by destruct Hcyc'.
Qed.


(** ** What the operations keep *)

Section Invariants.
Context `{UserCode}.

Lemma shutdown_loop_static l :
  ∀ st r st', shutdown_loop l st = Some (r, st') →
    _dependencies (manager st') = _dependencies (manager st) ∧
    _dependency_graph (manager st') = _dependency_graph (manager st) ∧
    (∀ c, is_Some (_instances (manager st') !! c) ↔ is_Some (_instances (manager st) !! c)).
Proof.
  induction l as [|c l IH]; intros st r st' Hl; simpl in Hl.
  - by injection Hl as <- <-.
  - destruct (_instances (manager st) !! c) as [[inst|]|] eqn:Hc.
    + destruct (teardown_of inst (history st)) as [e|].
      * by injection Hl as <- <-.
      * destruct (IH _ _ _ Hl) as (Hd & Hg & Hk). split_and!; [done..|].
        intros c'. rewrite Hk. simpl. destruct (decide (c = c')) as [->|Hne].
        -- rewrite lookup_insert_eq, Hc. split; eauto.
        -- by rewrite lookup_insert_ne.
    + by eapply IH.
    + by injection Hl as <- <-.
Qed.

Lemma shutdown_static st r st' :
  shutdown st = Some (r, st') →
  _dependencies (manager st') = _dependencies (manager st) ∧
  _dependency_graph (manager st') = _dependency_graph (manager st) ∧
  (∀ c, is_Some (_instances (manager st') !! c) ↔ is_Some (_instances (manager st) !! c)).
Proof.
  unfold shutdown. destruct (DiGraph.topological_sort _) as [order e].
  unfold bind, finish. destruct (DiGraph.ending_exc e); simpl.
  - by intros [= <- <-].
  - apply shutdown_loop_static.
Qed.

Lemma get_frames fuel cls st r st' :
  get fuel cls st = Some (r, st') → frames [] st st'.
Proof.
  unfold get, bind. destruct (_get_instance fuel cls st) as [[[i|e] st1]|] eqn:Hg; [| |done].
  - intros [= <- <-]. by destruct (_get_instance_plain _ _ _ _ _ Hg).
  - intros [= <- <-]. by destruct (_get_instance_plain _ _ _ _ _ Hg).
Qed.

Lemma depends_frames fuel cls st r st' :
  depends fuel cls st = Some (r, st') → frames [] st st'.
Proof.
  unfold depends, bind. destruct (_get_instance fuel cls st) as [[[i|e] st1]|] eqn:Hg; [| |done].
  - destruct (get_fn i) as [[f|]|e]; intros [= <- <-];
      by destruct (_get_instance_plain _ _ _ _ _ Hg).
  - intros [= <- <-]. by destruct (_get_instance_plain _ _ _ _ _ Hg).
Qed.

Lemma startup_frames fuel st r st' :
  startup fuel st = Some (r, st') → frames [] st st'.
Proof.
  unfold startup. destruct (DiGraph.topological_sort _) as [order e]. unfold bind.
  destruct (startup_loop fuel order st) as [[[[]|e'] st1]|] eqn:Hl; [| |done].
  - destruct (startup_loop_frames _ _ _ _ _ Hl) as [Hf _].
    unfold finish. destruct (DiGraph.ending_exc e); by intros [= <- <-].
  - intros [= <- <-]. by destruct (startup_loop_frames _ _ _ _ _ Hl).
Qed.


(** X4: [get], [depends] and [startup], whether they return or raise,
    never drop or replace a cached instance, never register or unregister
    a class, and never touch the dependency lists or the graph; the
    history only grows. *)
Theorem resolution_never_evicts fuel st cls inst :
  _instances (manager st) !! cls = Some (Some inst) →
  (∀ c r st', get fuel c st = Some (r, st') →
     _instances (manager st') !! cls = Some (Some inst) ∧ frames [] st st') ∧
  (∀ c r st', depends fuel c st = Some (r, st') →
     _instances (manager st') !! cls = Some (Some inst) ∧ frames [] st st') ∧
  (∀ r st', startup fuel st = Some (r, st') →
     _instances (manager st') !! cls = Some (Some inst) ∧ frames [] st st').
Proof.
  intros Hc. split_and!.
  - intros c r st' Hg. pose proof (get_frames _ _ _ _ _ Hg) as Hf.
    split; [by apply Hf | done].
  - intros c r st' Hg. pose proof (depends_frames _ _ _ _ _ Hg) as Hf.
    split; [by apply Hf | done].
  - intros r st' Hs. pose proof (startup_frames _ _ _ _ Hs) as Hf.
    split; [by apply Hf | done].
Qed.

(** ** Classes that cannot be resolved *)

Lemma resolve_deps_unregistered fuel A ds :
  ∀ acc st kw st',
    _instances (manager st) !! A = None → A ∈ ds →
    resolve_deps (_get_instance fuel) ds acc st ≠ Some (Ok kw, st').
Proof.
  induction ds as [|d ds IH]; intros acc st kw st' HA Hin Hr.
  - by apply elem_of_nil in Hin.
  - simpl in Hr. unfold bind in Hr.
    destruct (_get_instance fuel d st) as [[[i|e] st1]|] eqn:Hg; [|done..].
    destruct (_get_instance_plain _ _ _ _ _ Hg) as [Hf Hok].
    apply elem_of_cons in Hin as [->|Hin].
    + specialize (Hok i eq_refl). apply (fr_unreg _ _ _ Hf) in HA. congruence.
    + apply (fr_unreg _ _ _ Hf) in HA.
      destruct (param_name d); by eapply IH.
Qed.

(** X5: a class that names a dependency which was never registered
    cannot be resolved: [get] on it raises or does not return, and so does
    [startup] whenever the graph has a node that is not registered. *)
Theorem unregistered_dependency_blocks st A :
  _instances (manager st) !! A = None →
  (∀ fuel, get (S fuel) A st
            = Some (Raise (Exn RuntimeError (A +:+ " is not registered.")), st)) ∧
  (∀ B deps fuel v st',
     absent st B → _dependencies (manager st) !! B = Some deps → A ∈ deps →
     get fuel B st ≠ Some (Ok v, st')) ∧
  (∀ fuel st',
     manager_wf (manager st) → A ∈ DiGraph.nodes (_dependency_graph (manager st)) →
     startup fuel st ≠ Some (Ok tt, st')).
Proof.
  intros HA. split_and!.
  - intros fuel. unfold get, bind. simpl. by rewrite HA.
  - intros B deps fuel v st' HB Hdeps Hin Hg. unfold get, bind in Hg.
    destruct fuel as [|fuel]; [done|]. simpl in Hg.
    unfold absent in HB. rewrite HB, Hdeps in Hg. unfold bind in Hg.
    destruct (resolve_deps (_get_instance fuel) deps [] st) as [[[kw|e] st1]|] eqn:Hr;
      [|done..].
    by eapply resolve_deps_unregistered.
  - intros fuel st' Hwf HAn Hs.
    assert (Hreg : is_Some (_instances (manager st') !! A)).
    { pose proof Hs as Hs'. unfold startup in Hs'.
      destruct (DiGraph.topological_sort (_dependency_graph (manager st)))
        as [order e] eqn:Hts.
      unfold bind in Hs'.
      destruct (startup_loop fuel order st) as [[[[]|e'] st1]|] eqn:Hl; [|done..].
      destruct (finish_ok _ _ _ _ Hs') as [-> <-].
      destruct (startup_loop_frames _ _ _ _ _ Hl) as [_ Hall].
      destruct (topological_sort_sound _ _ _ (mw_graph _ Hwf) Hts) as [_ Hex].
      destruct (Hex eq_refl) as (_ & _ & Hnodes).
      destruct (Hall eq_refl A) as [i Hi]; [by apply Hnodes|]. by eexists. }
    apply (fr_unreg _ _ _ (startup_frames _ _ _ _ Hs)) in HA.
    rewrite HA in Hreg. by destruct Hreg.
Qed.

(** X6: classes that wait for each other are never resolved.  If every
    class of [S] is uncached and has a dependency in [S], then
    [_get_instance] on a class of [S] returns no instance, however deep the
    recursion is allowed to go; it raises or does not return, and leaves
    every class of [S] uncached. *)
Theorem dependency_cycle_never_resolves st (S : list Cls) y fuel :
  (∀ x, x ∈ S → absent st x) →
  (∀ x, x ∈ S → ∃ ds d, _dependencies (manager st) !! x = Some ds ∧ d ∈ ds ∧ d ∈ S) →
  y ∈ S →
  (∀ i st', _get_instance fuel y st ≠ Some (Ok i, st')) ∧
  (∀ v st', get fuel y st ≠ Some (Ok v, st')) ∧
  (∀ r st', _get_instance fuel y st = Some (r, st') → ∀ x, x ∈ S → absent st' x).
Proof.
  intros HS Hdeps Hy.
  assert (Hstuck : stuck (_dependencies (manager st)) S y).
  { intros x Hx. destruct (Hdeps x Hx) as (ds & d & ? & ? & ?). exists ds, d. auto. }
  assert (Hno : ∀ i st', _get_instance fuel y st ≠ Some (Ok i, st')).
  { intros i st' Hg.
    destruct (_get_instance_frames fuel S y st _ _ HS Hstuck Hg) as (_ & Hraise & _).
    by destruct (Hraise Hy). }
  split_and!; [done | |].
  - intros v st' Hg. unfold get, bind in Hg.
    destruct (_get_instance fuel y st) as [[[i|e] st1]|] eqn:Hg'; [|done..].
    by eapply Hno.
  - intros r st' Hg x Hx.
    destruct (_get_instance_frames fuel S y st _ _ HS Hstuck Hg) as (Hf & _ & _).
    apply Hf; auto.
Qed.

End Invariants.

(** ** What a resolution builds *)

Lemma dict_set_keys {V} (k : string) (v : V) d p :
  p ∈ (dict_set k v d).*1 ↔ p = k ∨ p ∈ d.*1.
Proof.
  induction d as [|[k' v'] d IH]; simpl.
  - rewrite list_elem_of_singleton. split; [auto | by intros [?|?%elem_of_nil]].
  - case_decide as Hk; simpl.
    + subst k'. rewrite !elem_of_cons. tauto.
    + rewrite !elem_of_cons, IH. tauto.
Qed.

Lemma dict_set_elem {V} (k : string) (v : V) d p i :
  (p, i) ∈ dict_set k v d → (p = k ∧ i = v) ∨ (p, i) ∈ d.
Proof.
  induction d as [|[k' v'] d IH]; simpl.
  - intros [= -> ->]%list_elem_of_singleton. auto.
  - case_decide as Hk.
    + intros [[= -> ->]|Hin]%elem_of_cons; [auto|]. right. by right.
    + intros [[= -> ->]|Hin]%elem_of_cons; [right; left|].
      destruct (IH Hin) as [?|?]; [auto|]. right. by right.
Qed.

Lemma dict_set_NoDup {V} (k : string) (v : V) d :
  NoDup d.*1 → NoDup (dict_set k v d).*1.
Proof.
  induction d as [|[k' v'] d IH]; simpl; intros Hnd.
  - apply NoDup_singleton.
  - apply NoDup_cons in Hnd as [Hk' Hnd]. case_decide as Hk; simpl.
    + subst k'. by apply NoDup_cons.
    + apply NoDup_cons. split; [|auto].
      rewrite dict_set_keys. intros [?|?]; [by subst | done].
Qed.

Section Built.
Context `{UserCode}.

Lemma resolve_deps_result fuel ds :
  ∀ acc st kw st1,
    resolve_deps (_get_instance fuel) ds acc st = Some (Ok kw, st1) →
    frames [] st st1 ∧
    (∀ d, d ∈ ds → cached st1 d) ∧
    (∀ p i, (p, i) ∈ kw →
       (p, i) ∈ acc ∨
       ∃ d, d ∈ ds ∧ param_name d = Some p ∧ _instances (manager st1) !! d = Some (Some i)) ∧
    (∀ p, p ∈ kw.*1 ↔ p ∈ acc.*1 ∨ ∃ d, d ∈ ds ∧ param_name d = Some p) ∧
    (NoDup acc.*1 → NoDup kw.*1).
Proof.
  induction ds as [|d ds IH]; intros acc st kw st1 Hr; simpl in Hr.
  - injection Hr as <- <-. split_and!; [apply frames_refl | | auto | | done].
    + intros d Hd. by apply elem_of_nil in Hd.
    + intros p. split; [auto|]. intros [?|(d & Hd & _)]; [done | by apply elem_of_nil in Hd].
  - unfold bind in Hr.
    destruct (_get_instance fuel d st) as [[[i0|e] st0]|] eqn:Hg; [|done..].
    destruct (_get_instance_plain _ _ _ _ _ Hg) as [Hf0 Hok].
    specialize (Hok i0 eq_refl).
    assert (Hrest : ∃ acc',
              resolve_deps (_get_instance fuel) ds acc' st0 = Some (Ok kw, st1) ∧
              acc' = match param_name d with
                     | Some p => dict_set p i0 acc
                     | None => acc
                     end).
    { destruct (param_name d); eauto. }
    destruct Hrest as (acc' & Hr' & Hacc').
    destruct (IH _ _ _ _ Hr') as (Hf & Hcached & Hentries & Hkeys & Hnd).
    pose proof (fr_cached _ _ _ Hf d i0 Hok) as Hd1.
    split_and!.
    + by eapply frames_trans.
    + intros d' [->|Hd']%elem_of_cons; [by exists i0 | auto].
    + intros p i Hin. destruct (Hentries p i Hin) as [Hacc | (d' & Hd' & Hp & Hi)].
      * destruct (param_name d) as [pd|] eqn:Hpd; subst acc'; [|auto].
        apply dict_set_elem in Hacc as [[-> ->]|?]; [|auto].
        right. exists d. split_and!; [left | done | done].
      * right. exists d'. split_and!; [by right | done | done].
    + intros p. rewrite Hkeys. split.
      * intros [Hacc | (d' & Hd' & Hp)].
        -- destruct (param_name d) as [pd|] eqn:Hpd; subst acc'; [|auto].
           apply dict_set_keys in Hacc as [->|?]; [|auto].
           right. exists d. split; [left | done].
        -- right. exists d'. split; [by right | done].
      * intros [Hacc | (d' & [->|Hd']%elem_of_cons & Hp)].
        -- left. destruct (param_name d); subst acc'; [|done].
           apply dict_set_keys. auto.
        -- left. rewrite Hp in Hacc'. subst acc'. apply dict_set_keys. auto.
        -- right. eauto.
    + intros Hacc. apply Hnd. destruct (param_name d); subst acc'; [|done].
      by apply dict_set_NoDup.
Qed.

(** X7: when [_get_instance] returns for a class that was not cached, the
    instance it returns is an instance of that class, it is the one now
    in the cache, and every class of its dependency list is cached too. *)
Theorem get_instance_caches_dependencies fuel cls st deps inst st' :
  absent st cls →
  _dependencies (manager st) !! cls = Some deps →
  _get_instance fuel cls st = Some (Ok inst, st') →
  _instances (manager st') !! cls = Some (Some inst) ∧
  inst_cls inst = cls ∧
  (∀ d, d ∈ deps → cached st' d).
Proof.
  intros Habs Hdeps Hg.
  destruct (_get_instance_plain _ _ _ _ _ Hg) as [_ Hok].
  destruct fuel as [|fuel]; [done|].
  simpl in Hg. unfold absent in Habs. rewrite Habs, Hdeps in Hg. unfold bind in Hg.
  destruct (resolve_deps (_get_instance fuel) deps [] st) as [[[kw|e] st1]|] eqn:Hr;
    [|done..].
  destruct (resolve_deps_result _ _ _ _ _ _ Hr) as (_ & Hcached & _).
  assert (Habs1 : absent st1 cls).
  { by destruct (resolve_deps_own_entry _ _ _ _ _ _ _ Habs Hdeps Hr). }
  destruct (instantiate_frames [] cls kw st1 _ st' Habs1 (not_elem_of_nil _) Hg)
    as [Hf _].
  split_and!; [by apply Hok | | ].
  - unfold instantiate in Hg. destruct (construct cls kw (history st1)); [|done].
    simpl in Hg. destruct (setup_of _ _); [done|]. by injection Hg as <- _.
  - intros d Hd. destruct (Hcached d Hd) as [i Hi]. exists i. by apply Hf.
Qed.

(** X8: the keyword arguments handed to a constructor have one entry for
    each distinct injection name among its dependencies, and none for a
    dependency whose [param_name] is [None]; each entry holds the cached
    instance of a dependency with that name. *)
Theorem constructor_arguments fuel deps st kwargs st1 :
  resolve_deps (_get_instance fuel) deps [] st = Some (Ok kwargs, st1) →
  NoDup kwargs.*1 ∧
  (∀ p, p ∈ kwargs.*1 ↔ ∃ d, d ∈ deps ∧ param_name d = Some p) ∧
  (∀ p i, (p, i) ∈ kwargs →
     ∃ d, d ∈ deps ∧ param_name d = Some p ∧
          _instances (manager st1) !! d = Some (Some i)).
Proof.
  intros Hr.
  destruct (resolve_deps_result _ _ _ _ _ _ Hr) as (_ & _ & Hentries & Hkeys & Hnd).
  split_and!.
  - apply Hnd. constructor.
  - intros p. rewrite Hkeys. split; [|auto]. by intros [?%elem_of_nil|?].
  - intros p i Hin. by destruct (Hentries p i Hin) as [?%elem_of_nil|?].
Qed.

End Built.

(** ** Dependencies are ready first *)



Section ReadyFirst.
Context `{UserCode}.









End ReadyFirst.

(** ** Shut-down, completed *)

Section ShutdownMore.
Context `{UserCode}.

Lemma shutdown_loop_absent l st :
  (∀ c, c ∈ l → absent st c) → shutdown_loop l st = Some (Ok tt, st).
Proof.
  induction l as [|c l IH]; intros Hall; [done|].
  simpl. rewrite (Hall c) by left. apply IH. intros c' Hc'. apply Hall. by right.
Qed.

Lemma shutdown_leaves_nothing_cached st st' :
  manager_wf (manager st) →
  shutdown st = Some (Ok tt, st') →
  ∀ c, ¬ cached st' c.
Proof.
  intros Hwf Hs.
  destruct (shutdown_trace _ _ _ Hwf Hs) as (evs & _ & _ & _ & Hok).
  destruct (Hok eq_refl) as [_ Habs].
  destruct (shutdown_static _ _ _ Hs) as (Hd & Hg & Hk).
  intros c [i Hi].
  assert (Hn : c ∈ DiGraph.nodes (_dependency_graph (manager st))).
  { apply (mw_nodes _ Hwf), Hk. by eexists. }
  apply Habs in Hn. unfold absent in Hn. congruence.
Qed.

Lemma manager_wf_shutdown st r st' :
  manager_wf (manager st) → shutdown st = Some (r, st') → manager_wf (manager st').
Proof.
  intros Hwf Hs. destruct (shutdown_static _ _ _ Hs) as (Hd & Hg & Hk).
  destruct Hwf as [Hwg Hdom Hnodes Hedges]. split.
  - by rewrite Hg.
  - intros c. by rewrite Hk, Hd.
  - intros c. rewrite Hk, Hg. apply Hnodes.
  - intros c deps d. rewrite Hd, Hg. apply Hedges.
Qed.

(** X9: after a [shutdown] that returned, no class is cached, and a
    second [shutdown] returns at once: it calls no [teardown] and changes
    nothing. *)
Theorem shutdown_twice st st' :
  manager_wf (manager st) →
  shutdown st = Some (Ok tt, st') →
  (∀ c, ¬ cached st' c) ∧
  shutdown st' = Some (Ok tt, st').
Proof.
  intros Hwf Hs.
  destruct (shutdown_trace _ _ _ Hwf Hs) as (evs & _ & _ & _ & Hok).
  destruct (Hok eq_refl) as [_ Habs].
  destruct (shutdown_static _ _ _ Hs) as (Hd & Hg & Hk).
  split.
  - by eapply shutdown_leaves_nothing_cached.
  - unfold shutdown in *. rewrite Hg.
    destruct (DiGraph.topological_sort (_dependency_graph (manager st))) as [order e] eqn:Hts.
    unfold bind, finish in *. destruct e; simpl in *; [|done..].
    apply shutdown_loop_absent. intros c Hc. apply Habs.
    destruct (topological_sort_sound _ _ _ (mw_graph _ Hwf) Hts) as [_ Hex].
    destruct (Hex eq_refl) as (_ & _ & Hnodes). by apply Hnodes, elem_of_reverse.
Qed.

Lemma shutdown_loop_raises l :
  ∀ st e st', shutdown_loop l st = Some (Raise e, st') →
    (∃ c, c ∈ l ∧ _instances (manager st') !! c = None ∧ e = Exn KeyError c) ∨
    (∃ c inst, c ∈ l ∧ _instances (manager st') !! c = Some (Some inst) ∧
               last (history st') = Some (EvTeardown c (Some e))).
Proof.
  induction l as [|c l IH]; intros st e st' Hl; simpl in Hl; [done|].
  destruct (_instances (manager st) !! c) as [[inst|]|] eqn:Hc.
  - destruct (teardown_of inst (history st)) as [e'|].
    + injection Hl as <- <-. right. exists c, inst. split_and!; [left | done |].
      simpl. apply last_snoc.
    + destruct (IH _ _ _ Hl) as [(c' & ? & ? & ?) | (c' & i' & ? & ? & ?)].
      * left. exists c'. split_and!; [by right | done..].
      * right. exists c', i'. split_and!; [by right | done..].
  - destruct (IH _ _ _ Hl) as [(c' & ? & ? & ?) | (c' & i' & ? & ? & ?)].
    + left. exists c'. split_and!; [by right | done..].
    + right. exists c', i'. split_and!; [by right | done..].
  - injection Hl as <- <-. left. exists c. split_and!; [left | done..].
Qed.

(** X10: a [shutdown] that raises does so for one of three reasons: the
    graph has a cycle, and nothing was torn down; a node of the graph was
    never registered, and the error is the [KeyError] of the cache lookup;
    or a [teardown] raised, and then the instance whose [teardown] raised
    is still in the cache. *)
Theorem shutdown_failures st e st' :
  manager_wf (manager st) →
  shutdown st = Some (Raise e, st') →
  (e = DiGraph.unfeasible ∧ st' = st ∧ ¬ acyclic (_dependency_graph (manager st))) ∨
  (∃ c, c ∈ DiGraph.nodes (_dependency_graph (manager st)) ∧
        _instances (manager st) !! c = None ∧ e = Exn KeyError c) ∨
  (∃ c inst, _instances (manager st') !! c = Some (Some inst) ∧
             last (history st') = Some (EvTeardown c (Some e))).
Proof.
  intros Hwf Hs. pose proof (shutdown_static _ _ _ Hs) as (_ & _ & Hk).
  unfold shutdown in Hs.
  destruct (DiGraph.topological_sort (_dependency_graph (manager st))) as [order en] eqn:Hts.
  destruct (topological_sort_sound _ _ _ (mw_graph _ Hwf) Hts) as [Hne Hex].
  unfold bind, finish in Hs. destruct en; simpl in Hs; [| |done].
  - destruct (Hex eq_refl) as (_ & _ & Hnodes).
    destruct (shutdown_loop_raises _ _ _ _ Hs) as [(c & Hc & Hnone & ->) | (c & i & _ & ? & ?)].
    + right; left. exists c. split_and!; [by apply Hnodes, elem_of_reverse | | done].
      destruct (_instances (manager st) !! c) eqn:Hc0; [|done].
      assert (His : is_Some (_instances (manager st') !! c)) by (apply Hk; eauto).
      rewrite Hnone in His. by destruct His.
    + right; right. eauto.
  - injection Hs as <- <-. left. split_and!; [done..|].
    intros Hac. pose proof (topological_sort_complete _ (mw_graph _ Hwf) Hac) as He.
    by rewrite Hts in He.
Qed.

(** X11: on a manager whose graph has a cycle, [shutdown] raises
    [NetworkXUnfeasible] before it tears anything down, and [startup]
    never returns normally. *)
Theorem cyclic_manager_cannot_start_or_stop st :
  manager_wf (manager st) →
  ¬ acyclic (_dependency_graph (manager st)) →
  shutdown st = Some (Raise DiGraph.unfeasible, st) ∧
  (∀ fuel st', startup fuel st ≠ Some (Ok tt, st')).
Proof.
  intros Hwf Hcyc.
  destruct (DiGraph.topological_sort (_dependency_graph (manager st))) as [order en] eqn:Hts.
  destruct (topological_sort_sound _ _ _ (mw_graph _ Hwf) Hts) as [Hne Hex].
  assert (en = DiGraph.Unfeasible) as ->.
  { destruct en; [|done..]. destruct Hcyc.
    destruct (Hex eq_refl) as (Hr & _ & Hall).
    eapply respects_acyclic; [done | apply Hall | apply Hwf]. }
  split.
  - unfold shutdown. by rewrite Hts.
  - intros fuel st' Hs. unfold startup in Hs. rewrite Hts in Hs. unfold bind in Hs.
    destruct (startup_loop fuel order st) as [[[[]|e'] st1]|]; done.
Qed.

End ShutdownMore.

(** ** Start-up, completed *)

Lemma construction_order_app l1 l2 :
  construction_order (l1 ++ l2) = construction_order l1 ++ construction_order l2.
Proof. apply omap_app. Qed.

Lemma teardown_order_app l1 l2 :
  teardown_order (l1 ++ l2) = teardown_order l1 ++ teardown_order l2.
Proof. apply omap_app. Qed.

Section StartupMore.
Context `{UserCode}.

Lemma startup_loop_prefix fuel E :
  ∀ todo done st r st',
    NoDup (done ++ todo) → respects E (done ++ todo) →
    (∀ c deps d, _dependencies (manager st) !! c = Some deps → d ∈ deps → (d, c) ∈ E) →
    (∀ c, cached st c ↔ c ∈ done) →
    startup_loop fuel todo st = Some (r, st') →
    ∃ evs,
      history st' = history st ++ evs ∧
      construction_order evs `prefix_of` todo ∧
      teardown_order evs = [] ∧
      (∀ c, cached st' c ↔ c ∈ done ∨ c ∈ construction_order evs) ∧
      (r = Ok tt → construction_order evs = todo).
Proof.
  induction todo as [|c todo IH]; intros done st r st' Hnd Hresp Hedges Hcached Hl;
    simpl in Hl.
  - injection Hl as <- <-. exists []. rewrite app_nil_r. split_and!; try done.
    intros c. rewrite Hcached. split; [auto | by intros [?|?%elem_of_nil]].
  - assert (HcD : c ∉ done).
    { apply NoDup_app in Hnd as (_ & Hdisj & _). intros Hc. apply (Hdisj c Hc). left. }
    assert (Hsame : ∀ ev c', cached (log ev st) c' ↔ c' ∈ done ∨ c' ∈ @nil Cls).
    { intros ev c'. unfold cached. simpl. rewrite <- Hcached. unfold cached.
      split; [auto | by intros [?|?%elem_of_nil]]. }
    unfold bind in Hl.
    destruct fuel as [|fuel]; [done|]. cbn [_get_instance] in Hl.
    destruct (_instances (manager st) !! c) as [[inst|]|] eqn:Hc.
    { exfalso. apply HcD, Hcached. by exists inst. }
    2:{ injection Hl as <- <-. exists []. rewrite app_nil_r.
        split_and!; [done | apply prefix_nil | done | | done].
        intros c'. rewrite Hcached. split; [auto | by intros [?|?%elem_of_nil]]. }
    destruct (_dependencies (manager st) !! c) as [ds|] eqn:Hds.
    2:{ injection Hl as <- <-. exists []. rewrite app_nil_r.
        split_and!; [done | apply prefix_nil | done | | done].
        intros c'. rewrite Hcached. split; [auto | by intros [?|?%elem_of_nil]]. }
    unfold bind in Hl.
    destruct (resolve_deps (_get_instance fuel) ds [] st) as [[rk st0]|] eqn:Hr; [|done].
    destruct (resolve_deps_cached _ _ _ _ _ _ (λ d Hd, proj2 (Hcached d)
                (Hresp done c todo d eq_refl (Hedges c ds d Hds Hd))) Hr) as [-> [kw ->]].
    unfold instantiate in Hl.
    destruct (construct c kw (history st)) as [gf|e0].
    2:{ injection Hl as <- <-. exists [EvInit c (Some e0)].
        split_and!; [done | apply prefix_nil | done | apply Hsame | done]. }
    set (inst := mkInstance c (length (history st)) gf) in *.
    set (st1 := set_instance c (Some inst) (log (EvInit c None) st)) in *.
    assert (Hcached1 : ∀ c', cached st1 c' ↔ c' ∈ done ++ [c]).
    { intros c'. unfold cached. simpl. rewrite elem_of_app, list_elem_of_singleton.
      destruct (decide (c = c')) as [->|Hne].
      - rewrite lookup_insert_eq. split; eauto.
      - rewrite lookup_insert_ne by done. rewrite <- Hcached. unfold cached.
        split; [auto | by intros [?|?]]. }
    destruct (setup_of inst (history st1)) as [e0|].
    + injection Hl as <- <-. exists [EvInit c None; EvSetup c (Some e0)].
      split_and!; [unfold st1; simpl; by rewrite <- (assoc_L (++))
                  | apply prefix_cons, prefix_nil | done | | done].
      intros c'. change (cached (log (EvSetup c (Some e0)) st1) c') with (cached st1 c').
      rewrite Hcached1, elem_of_app. done.
    + destruct (IH (done ++ [c]) (log (EvSetup c None) st1) r st')
        as (evs & Hh & Hpre & Htd & Hc' & Hok).
      * by rewrite <- (assoc_L (++)).
      * by rewrite <- (assoc_L (++)).
      * done.
      * done.
      * done.
      * exists (EvInit c None :: EvSetup c None :: evs). split_and!.
        -- rewrite Hh. unfold st1. simpl. by rewrite <- !(assoc_L (++)).
        -- simpl. by apply prefix_cons.
        -- done.
        -- intros c'. rewrite Hc', elem_of_app, list_elem_of_singleton. simpl.
           rewrite elem_of_cons. tauto.
        -- intros Hr'. simpl. by rewrite Hok.
Qed.

(** X12: what a [startup] leaves behind on a manager that held no
    instance, whether it returns or raises: it has called no [teardown],
    the classes whose constructor has returned form an initial part of the
    topological order, and they are exactly the classes that are now
    cached.  When [startup] returns, they are all the nodes of the graph,
    each constructed once. *)
Theorem startup_constructs_a_prefix fuel st r st' :
  manager_wf (manager st) →
  (∀ c, ¬ cached st c) →
  startup fuel st = Some (r, st') →
  ∃ evs,
    history st' = history st ++ evs ∧
    teardown_order evs = [] ∧
    construction_order evs
      `prefix_of` (DiGraph.topological_sort (_dependency_graph (manager st))).1 ∧
    (∀ c, cached st' c ↔ c ∈ construction_order evs) ∧
    (r = Ok tt →
       construction_order evs ≡ₚ DiGraph.nodes (_dependency_graph (manager st))).
Proof.
  intros Hwf Hfresh Hs. unfold startup in Hs.
  destruct (DiGraph.topological_sort (_dependency_graph (manager st))) as [order e] eqn:Hts.
  unfold bind in Hs.
  destruct (startup_loop fuel order st) as [[r1 st1]|] eqn:Hl; [|done].
  destruct (generations_returns (_dependency_graph (manager st))
              (S (size (DiGraph.initial_indegree_map (_dependency_graph (manager st)))))
              (DiGraph.initial_zero_indegree (_dependency_graph (manager st)))
              (DiGraph.initial_indegree_map (_dependency_graph (manager st))))
    as [[gs e'] Hg]; [lia|].
  assert (Horder : order = concat gs ∧ e = e').
  { unfold DiGraph.topological_sort, DiGraph.topological_generations in Hts.
    rewrite Hg in Hts. simpl in Hts. by injection Hts as <- <-. }
  destruct Horder as [-> <-].
  destruct (kahn_inv_generations_final _ (mw_graph _ Hwf) _ _ _ _ _ _
              (kahn_inv_initial _ (mw_graph _ Hwf)) Hg) as (m' & Hfin & _).
  simpl in Hfin. destruct Hfin as [Hnd _ _ Hresp _ _ _]. rewrite app_nil_r in Hnd.
  destruct (startup_loop_prefix fuel _ (concat gs) [] st r1 st1 Hnd Hresp (mw_edges _ Hwf))
    as (evs & Hh & Hpre & Htd & Hc & Hok); [|done|].
  { intros c. split; [by intros ?%Hfresh | by intros ?%elem_of_nil]. }
  assert (Hst : st' = st1 ∧ (r = Ok tt → r1 = Ok tt ∧ e = DiGraph.Exhausted)).
  { destruct r1 as [[]|e1]; [|by injection Hs as <- <-].
    unfold finish in Hs. destruct e; simpl in Hs; injection Hs as <- <-; by split. }
  destruct Hst as [-> Hr].
  exists evs. split_and!; [done | done | done | |].
  - intros c. rewrite Hc. split; [by intros [?%elem_of_nil|?] | auto].
  - intros Hr'. destruct (Hr Hr') as [-> ->]. rewrite (Hok eq_refl).
    destruct (topological_sort_sound _ _ _ (mw_graph _ Hwf) Hts) as [_ Hex].
    destruct (Hex eq_refl) as (_ & Hnd' & Hnodes).
    apply NoDup_Permutation; [done | apply Hwf | done].
Qed.

End StartupMore.

(** ** [get], composed *)

Section Composed.
Context `{UserCode}.


(** X14: a manager can be started again after it was shut down: after a
    [shutdown] that returned, a [startup] that returns has constructed
    every node of the graph afresh, once each, and torn nothing down. *)
Theorem restart_rebuilds_everything fuel st st1 st2 :
  manager_wf (manager st) →
  shutdown st = Some (Ok tt, st1) →
  startup fuel st1 = Some (Ok tt, st2) →
  ∃ evs,
    history st2 = history st1 ++ evs ∧
    teardown_order evs = [] ∧
    construction_order evs ≡ₚ DiGraph.nodes (_dependency_graph (manager st)) ∧
    (∀ c, cached st2 c ↔ c ∈ DiGraph.nodes (_dependency_graph (manager st))).
Proof.
  intros Hwf Hsh Hst.
  pose proof (shutdown_leaves_nothing_cached _ _ Hwf Hsh) as Hfresh.
  pose proof (manager_wf_shutdown _ _ _ Hwf Hsh) as Hwf1.
  destruct (shutdown_static _ _ _ Hsh) as (_ & Hg & _).
  destruct (startup_fresh _ _ _ Hwf1 Hfresh Hst)
    as (order & _ & Hnd & _ & Hnodes & Hh & Hc & _).
  rewrite Hg in Hnodes.
  exists (startup_events order). rewrite construction_order_startup_events.
  split_and!; [done | | |].
  - clear. induction order as [|c order IH]; [done|]. by rewrite startup_events_cons.
  - apply NoDup_Permutation; [done | apply Hwf | done].
  - intros c. by rewrite Hc, Hnodes.
Qed.

End Composed.

(** ** Injection names *)

Lemma to_lower_not_upper c : is_upper (to_lower c) = false.
Proof.
  unfold to_lower. destruct (is_upper c) eqn:Hu; [|done].
  unfold is_upper in *. apply andb_prop in Hu as [H1 H2].
  apply Nat.leb_le in H1, H2.
  rewrite nat_ascii_embedding by lia.
  apply andb_false_iff. right. apply Nat.leb_gt. lia.
Qed.

Lemma to_lower_id c : is_upper c = false → to_lower c = c.
Proof. unfold to_lower. by intros ->. Qed.

Lemma snake_tail_app s1 s2 : snake_tail (s1 +:+ s2) = snake_tail s1 +:+ snake_tail s2.
Proof.
  induction s1 as [|c s1 IH]; [done|].
  change (String c s1 +:+ s2) with (String c (s1 +:+ s2)). simpl.
  destruct (is_upper c); rewrite IH; done.
Qed.

Lemma snake_tail_no_capital s : Forall (λ c, is_upper c = false) (chars (snake_tail s)).
Proof.
  induction s as [|c s IH]; simpl; [constructor|].
  destruct (is_upper c) eqn:Hu; simpl.
  - constructor; [done|]. constructor; [apply to_lower_not_upper | done].
  - by constructor.
Qed.

Lemma snake_tail_id s :
  Forall (λ c, is_upper c = false) (chars s) → snake_tail s = s.
Proof.
  induction s as [|c s IH]; simpl; [done|].
  intros [Hc Hs]%Forall_cons. rewrite Hc, IH; done.
Qed.

(** X15: the default injection name of a class contains no capital
    letter, and a name without capital letters is its own injection
    name. *)
Theorem param_name_is_lower_case cls_name :
  ascii_only cls_name →
  ∃ s, GlobalObject_param_name cls_name = Some s ∧
       Forall (λ c, is_upper c = false) (chars s) ∧
       (Forall (λ c, is_upper c = false) (chars cls_name) → s = cls_name).
Proof.
  intros _. eexists. split; [done|].
  destruct cls_name as [|c s]; simpl.
  - split; [constructor | done].
  - split.
    + constructor; [apply to_lower_not_upper | apply snake_tail_no_capital].
    + intros [Hc Hs]%Forall_cons. by rewrite to_lower_id, snake_tail_id.
Qed.

(** X16: the default injection name of a name made of two words, the
    second starting with a capital letter, is the two injection names
    joined by an underscore. *)
Theorem param_name_joins_words word1 c word2 s1 s2 :
  ascii_only (word1 +:+ String c word2) →
  word1 ≠ EmptyString →
  is_upper c = true →
  GlobalObject_param_name word1 = Some s1 →
  GlobalObject_param_name (String c word2) = Some s2 →
  GlobalObject_param_name (word1 +:+ String c word2) = Some (s1 +:+ "_" +:+ s2).
Proof.
  intros _ Hne Hc [= <-] [= <-].
  destruct word1 as [|a w1]; [done|].
  change (String a w1 +:+ String c word2) with (String a (w1 +:+ String c word2)).
  unfold GlobalObject_param_name. f_equal.
  rewrite snake_tail_app. simpl. rewrite Hc. done.
Qed.

(** ** A proxy after [teardown] *)

(** X17: [teardown] deletes [_instance].  From then on attribute and
    item access on the proxy recurse without end instead of giving a
    value, a second [teardown] raises [AttributeError], and [setup] works
    again only if [_setup_proxy_impl] assigns [_instance] anew. *)
Theorem proxy_after_teardown {Val} (is_none : Val → bool)
    (val_getattr val_getitem : Val → string → Result Val)
    (self self' : @GlobalObjectProxy.t Val) :
  GlobalObjectProxy.teardown self = Ok self' →
  (∀ fuel item, GlobalObjectProxy.__getattr__ val_getattr fuel self' item = None) ∧
  (∀ fuel item, GlobalObjectProxy.__getitem__ val_getattr val_getitem fuel self' item = None) ∧
  (∃ e, GlobalObjectProxy.teardown self' = Raise e ∧ exc_type e = AttributeError) ∧
  (∀ impl fuel, impl self' = Ok self' →
     GlobalObjectProxy.setup is_none val_getattr impl fuel self' = None) ∧
  (∀ impl fuel v, impl self' = Ok (GlobalObjectProxy.mk (Some v)) → is_none v = false →
     GlobalObjectProxy.setup is_none val_getattr impl fuel self'
     = Some (Ok (GlobalObjectProxy.mk (Some v)))).
Proof.
  unfold GlobalObjectProxy.teardown, GlobalObjectProxy._teardown_proxy_impl.
  destruct (GlobalObjectProxy.slot self); [|done]. intros [= <-].
  split_and!.
  - intros fuel item. apply proxy_deleted_getattr.
  - intros fuel item. unfold GlobalObjectProxy.__getitem__,
      GlobalObjectProxy.getitem_with, GlobalObjectProxy.read_instance_with. simpl.
    by rewrite proxy_deleted_getattr.
  - eexists. split; [done|done].
  - intros impl fuel Himpl. unfold GlobalObjectProxy.setup,
      GlobalObjectProxy.setup_with, GlobalObjectProxy.read_instance_with.
    rewrite Himpl. simpl. by rewrite proxy_deleted_getattr.
  - intros impl fuel w Himpl Hw. unfold GlobalObjectProxy.setup,
      GlobalObjectProxy.setup_with, GlobalObjectProxy.read_instance_with.
    rewrite Himpl. simpl. by rewrite Hw.
Qed.

(** ** Resolution returns *)

Section Returns.
Context `{UserCode}.

Lemma instantiate_returns cls kw st : is_Some (instantiate cls kw st).
Proof.
  unfold instantiate. destruct (construct cls kw (history st)); [|by eexists].
  destruct (setup_of _ _); by eexists.
Qed.

Lemma resolve_deps_returns fuel D ds :
  (∀ d st, d ∈ ds → _dependencies (manager st) = D → is_Some (_get_instance fuel d st)) →
  ∀ acc st, _dependencies (manager st) = D →
    is_Some (resolve_deps (_get_instance fuel) ds acc st).
Proof.
  induction ds as [|d ds IH]; intros Hrec acc st HD; [by eexists|].
  simpl. unfold bind.
  destruct (Hrec d st) as [[[i|e] st1] Hg]; [left | done | |]; rewrite Hg; [|by eexists].
  destruct (_get_instance_plain _ _ _ _ _ Hg) as [Hf _].
  assert (HD1 : _dependencies (manager st1) = D) by (rewrite <- HD; apply Hf).
  destruct (param_name d); apply IH; try done; intros d' st' Hd'; apply Hrec; by right.
Qed.

Lemma _get_instance_returns E D order :
  respects E order →
  (∀ c deps d, D !! c = Some deps → d ∈ deps → (d, c) ∈ E) →
  ∀ n c st fuel,
    n < fuel → _dependencies (manager st) = D →
    (∀ ds d, D !! c = Some ds → d ∈ ds →
       ∃ l1 l2, order = l1 ++ c :: l2 ∧ length l1 ≤ n) →
    is_Some (_get_instance fuel c st).
Proof.
  intros Hresp Hedges. induction n as [|n IH]; intros c st fuel Hlt HD Hpos.
  - destruct fuel as [|fuel]; [lia|]. simpl.
    destruct (_instances (manager st) !! c) as [[i|]|]; [by eexists | | by eexists].
    rewrite HD. destruct (D !! c) as [ds|] eqn:Hds; [|by eexists].
    destruct ds as [|d ds].
    + simpl. unfold bind, ret. apply instantiate_returns.
    + destruct (Hpos (d :: ds) d eq_refl) as (l1 & l2 & -> & Hlen); [left|].
      destruct l1; [|simpl in Hlen; lia].
      pose proof (Hresp [] c l2 d eq_refl (Hedges c _ d Hds ltac:(left))) as Hin.
      by apply elem_of_nil in Hin.
  - destruct fuel as [|fuel]; [lia|]. simpl.
    destruct (_instances (manager st) !! c) as [[i|]|]; [by eexists | | by eexists].
    rewrite HD. destruct (D !! c) as [ds|] eqn:Hds; [|by eexists].
    unfold bind.
    destruct (resolve_deps_returns fuel D ds) with (acc := @nil (string * Instance)) (st := st)
      as [[[kw|e] st1] Hr]; [|done| |].
    + intros d st0 Hd HD0. apply IH; [lia | done |].
      intros _ _ _ _. destruct (Hpos ds d eq_refl Hd) as (l1 & l2 & Horder & Hlen).
      pose proof (Hresp l1 c l2 d Horder (Hedges c ds d Hds Hd)) as Hin.
      apply list_elem_of_split in Hin as (a & b & ->).
      exists a, (b ++ c :: l2). split; [by rewrite Horder, <- (assoc_L (++))|].
      rewrite length_app in Hlen. simpl in Hlen. lia.
    + rewrite Hr. apply instantiate_returns.
    + rewrite Hr. by eexists.
Qed.

Lemma startup_loop_returns fuel D order :
  (∀ c st, _dependencies (manager st) = D → is_Some (_get_instance fuel c st)) →
  ∀ st, _dependencies (manager st) = D → is_Some (startup_loop fuel order st).
Proof.
  intros Hrec. induction order as [|c order IH]; intros st HD; [by eexists|].
  simpl. unfold bind. destruct (Hrec c st HD) as [[[i|e] st1] Hg]; rewrite Hg; [|by eexists].
  apply IH. destruct (_get_instance_plain _ _ _ _ _ Hg) as [Hf _].
  rewrite <- HD. apply Hf.
Qed.

(** X19: on a manager whose graph has no cycle, resolution always comes
    to an end: [get], [depends] and [startup] return or raise, and the
    recursion never goes deeper than the number of nodes of the graph. *)
Theorem resolution_returns st :
  manager_wf (manager st) →
  acyclic (_dependency_graph (manager st)) →
  (∀ cls, is_Some (get (S (length (DiGraph.nodes (_dependency_graph (manager st))))) cls st)) ∧
  (∀ cls, is_Some (depends (S (length (DiGraph.nodes (_dependency_graph (manager st))))) cls st)) ∧
  is_Some (startup (S (length (DiGraph.nodes (_dependency_graph (manager st))))) st).
Proof.
  intros Hwf Hac.
  destruct (DiGraph.topological_sort (_dependency_graph (manager st))) as [order e] eqn:Hts.
  pose proof (topological_sort_complete _ (mw_graph _ Hwf) Hac) as He.
  rewrite Hts in He. simpl in He. subst e.
  destruct (topological_sort_sound _ _ _ (mw_graph _ Hwf) Hts) as [_ Hex].
  destruct (Hex eq_refl) as (Hresp & Hnd & Hnodes).
  assert (Hlen : length order = length (DiGraph.nodes (_dependency_graph (manager st)))).
  { apply Permutation_length, NoDup_Permutation; [done | apply Hwf | done]. }
  rewrite <- Hlen.
  assert (Hget : ∀ c st0, _dependencies (manager st0) = _dependencies (manager st) →
                   is_Some (_get_instance (S (length order)) c st0)).
  { intros c st0 HD.
    eapply (_get_instance_returns _ _ order Hresp (mw_edges _ Hwf) (length order));
      [lia | done |].
    intros ds d Hds Hd.
    pose proof (mw_edges _ Hwf c ds d Hds Hd) as Hedge.
    assert (Hc : c ∈ order).
    { apply Hnodes. by destruct (proj2 (mw_graph _ Hwf) _ _ Hedge). }
    apply list_elem_of_split in Hc as (l1 & l2 & ->).
    exists l1, l2. split; [done|]. rewrite length_app. lia. }
  split_and!.
  - intros cls. unfold get, bind.
    destruct (Hget cls st eq_refl) as [[[i|e] st1] ->]; by eexists.
  - intros cls. unfold depends, bind.
    destruct (Hget cls st eq_refl) as [[[i|e] st1] ->]; [|by eexists].
    destruct (get_fn i) as [[f|]|e0]; by eexists.
  - unfold startup. rewrite Hts. unfold bind.
    destruct (startup_loop_returns (S (length order)) _ order Hget st eq_refl)
      as [[[[]|e] st1] ->]; by eexists.
Qed.

End Returns.

(** ** Edges are never removed *)

(** X20: [register] only ever adds to the graph.  When a class is
    registered again with another dependency list, the edges of its former
    dependencies stay: they still order start-up and still count in the
    cycle check. *)
Theorem stale_edges_survive c dependencies st old_deps d :
  manager_wf (manager st) →
  _dependencies (manager st) !! c = Some old_deps →
  d ∈ old_deps →
  ∃ r st',
    register c dependencies st = Some (r, st') ∧
    _dependencies (manager st') !! c = Some (default [] dependencies) ∧
    (d, c) ∈ DiGraph.edges (_dependency_graph (manager st')) ∧
    (∀ e, e ∈ DiGraph.edges (_dependency_graph (manager st)) →
          e ∈ DiGraph.edges (_dependency_graph (manager st'))) ∧
    (∀ v, v ∈ DiGraph.nodes (_dependency_graph (manager st)) →
          v ∈ DiGraph.nodes (_dependency_graph (manager st'))).
Proof.
  intros Hwf Hold Hd. destruct (register_result c dependencies st) as [r Hr].
  exists r, (committed c dependencies st). split_and!.
  - done.
  - simpl. apply lookup_insert_eq.
  - simpl. apply register_graph_edges. left. by eapply (mw_edges _ Hwf).
  - intros e He. simpl. apply register_graph_edges. by left.
  - intros v Hv. simpl. apply register_graph_nodes. by left.
Qed.

(** * The further properties on sample managers *)

Lemma acyclic_by_computation g :
  graph_wf g → DiGraph.is_directed_acyclic_graph g = Ok true → acyclic g.
Proof.
  intros Hwf Hdag. destruct (is_directed_acyclic_graph_sound g Hwf) as [[_ Hac] | Hf];
    [done | congruence].
Qed.

Lemma manager_wf_registered regs : manager_wf (manager (registered regs)).
Proof.
  unfold registered.
  assert (Hgen : ∀ st, manager_wf (manager st) →
            manager_wf (manager (foldl (λ st '(c, deps), state_after (register c (Some deps)) st)
                                   st regs))).
  { induction regs as [|[c deps] regs IH]; intros st Hwf; [done|].
    simpl. apply IH. unfold state_after.
    destruct (register_result c (Some deps) st) as [r ->].
    by apply manager_wf_committed. }
  apply Hgen. exact manager_wf_new.
Qed.

Lemma manager_wf_chain_started : manager_wf (manager chain_started).
Proof.
  eapply manager_wf_frames; [|exact manager_wf_chain_abc].
  exact (startup_frames 2 chain_abc _ _ chain_started_ok).
Qed.

Lemma manager_wf_waiting : manager_wf (manager waiting_for_each_other).
Proof. apply manager_wf_committed, manager_wf_registered. Qed.

Lemma waiting_has_a_cycle : ¬ acyclic (_dependency_graph (manager waiting_for_each_other)).
Proof.
  intros Hac. apply (Hac "A").
  assert (He : DiGraph.edges (_dependency_graph (manager waiting_for_each_other))
               = [("B", "A"); ("A", "B")]) by (vm_compute; reflexivity).
  unfold reaches. rewrite He. eapply tc_l; [|apply tc_once]; in_list.
Qed.

Lemma register_returns_iff_acyclic_witness :
  register "D" (Some ["C"]) chain_abc = Some (Ok "D", committed "D" (Some ["C"]) chain_abc).
Proof.
  destruct (register_returns_iff_acyclic "D" (Some ["C"]) chain_abc manager_wf_chain_abc)
    as [Hok _].
  apply Hok. apply acyclic_by_computation.
  - apply graph_wf_register_graph, manager_wf_chain_abc.
  - vm_compute. reflexivity.
Defined.

Lemma cyclic_manager_rejects_everything_witness :
  register "Z" None waiting_for_each_other
  = Some (Raise (CircularDependency "Z"), committed "Z" None waiting_for_each_other).
Proof.
  apply (cyclic_manager_rejects_everything "Z" None waiting_for_each_other).
  - exact manager_wf_waiting.
  - exact waiting_has_a_cycle.
Defined.


Lemma resolution_never_evicts_witness :
  _instances (manager (state_after (@get plain_code 2 "C") chain_started)) !! "A"
  = Some (Some (mkInstance "A" 0 (Ok None))).
Proof.
  destruct (@resolution_never_evicts plain_code 2 chain_started "A" (mkInstance "A" 0 (Ok None)))
    as (Hget & _ & _); [vm_compute; reflexivity|].
  destruct (Hget "C" (Ok (VInstance (mkInstance "C" 4 (Ok None))))
              (state_after (@get plain_code 2 "C") chain_started)) as [Hc _];
    [vm_compute; reflexivity | exact Hc].
Defined.

Lemma unregistered_dependency_blocks_witness :
  @get plain_code 3 "B" a_needs_b
  = Some (Raise (Exn RuntimeError "B is not registered."), a_needs_b) ∧
  ∀ v st', @get plain_code 3 "A" a_needs_b ≠ Some (Ok v, st').
Proof.
  destruct (@unregistered_dependency_blocks plain_code a_needs_b "B") as (Hget & Hdep & _);
    [vm_compute; reflexivity|].
  split; [exact (Hget 2)|].
  intros v st'. apply (Hdep "A" ["B"] 3 v st').
  - vm_compute. reflexivity.
  - vm_compute. reflexivity.
  - in_list.
Defined.

Lemma dependency_cycle_never_resolves_witness :
  match @get plain_code 100 "A" waiting_for_each_other with
  | Some (Ok _, _) => False
  | _ => True
  end.
Proof.
  destruct (@dependency_cycle_never_resolves plain_code waiting_for_each_other
              ["A"; "B"] "A" 100) as (_ & Hget & _); [| |in_list|];
    [| |destruct (@get plain_code 100 "A" waiting_for_each_other)
          as [[[v|e] st']|] eqn:Hrun; [exact (Hget v st' eq_refl)|exact I|exact I]].
  - intros x [->|[->|Hx%elem_of_nil]%elem_of_cons]%elem_of_cons;
      [vm_compute; reflexivity | vm_compute; reflexivity | done].
  - intros x [->|[->|Hx%elem_of_nil]%elem_of_cons]%elem_of_cons; [| |done].
    + exists ["B"], "B". split_and!; [vm_compute; reflexivity | in_list | in_list].
    + exists ["A"], "A". split_and!; [vm_compute; reflexivity | in_list | in_list].
Defined.

Lemma get_instance_caches_dependencies_witness :
  cached (state_after (@_get_instance plain_code 3 "C") chain_abc) "B" ∧
  inst_cls (mkInstance "C" 4 (Ok None)) = "C".
Proof.
  destruct (@get_instance_caches_dependencies plain_code 3 "C" chain_abc ["B"]
              (mkInstance "C" 4 (Ok None))
              (state_after (@_get_instance plain_code 3 "C") chain_abc))
    as (_ & Hcls & Hdeps);
    [vm_compute; reflexivity | vm_compute; reflexivity | vm_compute; reflexivity |].
  split; [apply Hdeps; in_list | exact Hcls].
Defined.

Lemma constructor_arguments_witness :
  "app_settings" ∈ [("app_settings", mkInstance "AppSettings" 0 (Ok None))].*1
  ↔ ∃ d, d ∈ ["AppSettings"; "Logger"] ∧ @param_name logger_code d = Some "app_settings".
Proof.
  destruct (@constructor_arguments logger_code 2 ["AppSettings"; "Logger"]
              service_registered
              [("app_settings", mkInstance "AppSettings" 0 (Ok None))]
              (state_after (@resolve_deps logger_code (@_get_instance logger_code 2)
                              ["AppSettings"; "Logger"] []) service_registered))
    as (_ & Hkeys & _); [vm_compute; reflexivity | exact (Hkeys "app_settings")].
Defined.

Lemma shutdown_twice_witness :
  @shutdown plain_code (state_after (@shutdown plain_code) chain_started)
  = Some (Ok tt, state_after (@shutdown plain_code) chain_started).
Proof.
  destruct (@shutdown_twice plain_code chain_started
              (state_after (@shutdown plain_code) chain_started)
              manager_wf_chain_started) as [_ Hagain];
    [vm_compute; reflexivity | exact Hagain].
Defined.

Lemma shutdown_failures_witness :
  ∃ st',
    @shutdown (failing_teardown boom) chain_started = Some (Raise boom, st') ∧
    ((boom = DiGraph.unfeasible ∧ st' = chain_started ∧
      ¬ acyclic (_dependency_graph (manager chain_started))) ∨
     (∃ c, c ∈ DiGraph.nodes (_dependency_graph (manager chain_started)) ∧
           _instances (manager chain_started) !! c = None ∧ boom = Exn KeyError c) ∨
     (∃ c inst, _instances (manager st') !! c = Some (Some inst) ∧
                last (history st') = Some (EvTeardown c (Some boom)))).
Proof.
  assert (Hsh : @shutdown (failing_teardown boom) chain_started
                = Some (Raise boom,
                        state_after (@shutdown (failing_teardown boom)) chain_started))
    by (vm_compute; reflexivity).
  eexists. split; [exact Hsh|].
  exact (@shutdown_failures (failing_teardown boom) chain_started boom _
           manager_wf_chain_started Hsh).
Defined.

Lemma cyclic_manager_cannot_start_or_stop_witness :
  @shutdown plain_code waiting_for_each_other
  = Some (Raise DiGraph.unfeasible, waiting_for_each_other).
Proof.
  destruct (@cyclic_manager_cannot_start_or_stop plain_code waiting_for_each_other
              manager_wf_waiting waiting_has_a_cycle) as [Hsh _].
  exact Hsh.
Defined.

Lemma fresh_flaky_registered : ∀ c, ¬ cached flaky_registered c.
Proof.
  intros c [i Hi]. change (_instances (manager flaky_registered)) with
    (<["Flaky" := None]> (<["Config" := None]> (∅ : gmap Cls (option Instance)))) in Hi.
  repeat (apply lookup_insert_Some in Hi as [[_ [=]] | [_ Hi]]).
  by rewrite lookup_empty in Hi.
Qed.

Lemma startup_constructs_a_prefix_witness :
  ∃ st' evs,
    @startup (failing_constructor boom) 2 flaky_registered = Some (Raise boom, st') ∧
    history st' = history flaky_registered ++ evs ∧
    construction_order evs
      `prefix_of` (DiGraph.topological_sort (_dependency_graph (manager flaky_registered))).1 ∧
    (∀ c, cached st' c ↔ c ∈ construction_order evs).
Proof.
  assert (Hs : @startup (failing_constructor boom) 2 flaky_registered
               = Some (Raise boom,
                       state_after (@startup (failing_constructor boom) 2) flaky_registered))
    by (vm_compute; reflexivity).
  destruct (@startup_constructs_a_prefix (failing_constructor boom) 2 flaky_registered _ _
              (manager_wf_registered _) fresh_flaky_registered Hs)
    as (evs & Hh & _ & Hpre & Hc & _).
  exists (state_after (@startup (failing_constructor boom) 2) flaky_registered), evs.
  split_and!; [exact Hs | exact Hh | exact Hpre | exact Hc].
Defined.


Lemma restart_rebuilds_everything_witness :
  ∃ st2 evs,
    @startup plain_code 2 (state_after (@shutdown plain_code) chain_started)
    = Some (Ok tt, st2) ∧
    history st2 = history (state_after (@shutdown plain_code) chain_started) ++ evs ∧
    construction_order evs ≡ₚ DiGraph.nodes (_dependency_graph (manager chain_started)).
Proof.
  assert (Hsh : @shutdown plain_code chain_started
                = Some (Ok tt, state_after (@shutdown plain_code) chain_started))
    by (vm_compute; reflexivity).
  assert (Hst : @startup plain_code 2 (state_after (@shutdown plain_code) chain_started)
                = Some (Ok tt, state_after (@startup plain_code 2)
                                 (state_after (@shutdown plain_code) chain_started)))
    by (vm_compute; reflexivity).
  destruct (@restart_rebuilds_everything plain_code 2 chain_started _ _
              manager_wf_chain_started Hsh Hst) as (evs & Hh & _ & Hperm & _).
  eexists _, evs. split_and!; [exact Hst | exact Hh | exact Hperm].
Defined.

Lemma ascii_only_AppSettings : ascii_only "AppSettings".
Proof. unfold ascii_only. simpl. repeat constructor. Qed.

Lemma param_name_is_lower_case_witness :
  ∃ s, GlobalObject_param_name "AppSettings" = Some s ∧
       Forall (λ c, is_upper c = false) (chars s).
Proof.
  destruct (param_name_is_lower_case "AppSettings" ascii_only_AppSettings)
    as (s & Hs & Hlow & _).
  exists s. split; [exact Hs | exact Hlow].
Defined.

Lemma param_name_joins_words_witness :
  GlobalObject_param_name "AppSettings" = Some "app_settings".
Proof.
  apply (param_name_joins_words "App" "S"%char "ettings" "app" "settings").
  - exact ascii_only_AppSettings.
  - discriminate.
  - reflexivity.
  - reflexivity.
  - reflexivity.
Defined.

Lemma proxy_after_teardown_witness :
  GlobalObjectProxy.__getattr__ plain_getattr 1000 (GlobalObjectProxy.mk None) "lower" = None ∧
  GlobalObjectProxy.__getitem__ plain_getattr plain_getitem 1000 (GlobalObjectProxy.mk None) "key"
  = None.
Proof.
  destruct (proxy_after_teardown plain_is_none plain_getattr plain_getitem
              (GlobalObjectProxy.mk (Some (PStr "client"))) (GlobalObjectProxy.mk None) eq_refl)
    as (Hattr & Hitem & _).
  split; [exact (Hattr 1000 "lower") | exact (Hitem 1000 "key")].
Defined.

Lemma resolution_returns_witness :
  is_Some (@startup plain_code 4 chain_abc).
Proof.
  destruct (@resolution_returns plain_code chain_abc manager_wf_chain_abc) as (_ & _ & Hs).
  - apply acyclic_by_computation; [apply manager_wf_chain_abc | vm_compute; reflexivity].
  - exact Hs.
Defined.

Lemma stale_edges_survive_witness :
  ∃ r st',
    register "B" (Some []) chain_abc = Some (r, st') ∧
    _dependencies (manager st') !! "B" = Some [] ∧
    ("A", "B") ∈ DiGraph.edges (_dependency_graph (manager st')).
Proof.
  destruct (stale_edges_survive "B" (Some []) chain_abc ["A"] "A" manager_wf_chain_abc)
    as (r & st' & Hr & Hd & He & _); [vm_compute; reflexivity | in_list |].
  exists r, st'. split_and!; [exact Hr | exact Hd | exact He].
Defined.

(** ** The settings prefix *)

Lemma to_upper_not_lower c : is_lower (to_upper c) = false.
Proof.
  unfold to_upper. destruct (is_lower c) eqn:Hl; [|done].
  unfold is_lower in *. apply andb_prop in Hl as [H1 H2].
  apply Nat.leb_le in H1, H2.
  rewrite nat_ascii_embedding by lia.
  apply andb_false_iff. left. apply Nat.leb_gt. lia.
Qed.

Lemma upper_no_lower s : Forall (λ c, is_lower c = false) (chars (upper s)).
Proof.
  induction s as [|c s IH]; simpl; [constructor|].
  constructor; [apply to_upper_not_lower | done].
Qed.

Lemma upper_fixed s : Forall (λ c, is_lower c = false) (chars s) → upper s = s.
Proof.
  induction s as [|c s IH]; simpl; [done|].
  intros [Hc Hs]%Forall_cons. unfold to_upper. rewrite Hc, IH; done.
Qed.

Lemma to_upper_ascii c : nat_of_ascii c < 128 → nat_of_ascii (to_upper c) < 128.
Proof.
  intros Hc. unfold to_upper. destruct (is_lower c); [|done].
  rewrite nat_ascii_embedding by lia. lia.
Qed.

Lemma ascii_only_upper s : ascii_only s → ascii_only (upper s).
Proof.
  unfold ascii_only. induction s as [|c s IH]; simpl; [done|].
  intros [Hc Hs]%Forall_cons. constructor; [by apply to_upper_ascii | auto].
Qed.

(** X21: settings start without a payload, and their prefix is upper
    case whatever [APP_NAME] holds (["APP"] when it is not set), so that
    the prefix of the [export] example in the error message is the prefix
    named in the line above it. *)
Theorem settings_prefix_is_upper_case {Val} `{PyStr} (py_none : Val)
    (app_name : option string) (settings_files : list string) :
  ascii_only (default "app" app_name) →
  AppSettings._instance (AppSettings.__init__ py_none app_name settings_files)
  = Some py_none ∧
  Forall (λ c, is_lower c = false)
    (chars (AppSettings.prefix (AppSettings.__init__ py_none app_name settings_files))) ∧
  str_upper (AppSettings.prefix (AppSettings.__init__ py_none app_name settings_files))
  = AppSettings.prefix (AppSettings.__init__ py_none app_name settings_files) ∧
  (app_name = None →
     AppSettings.prefix (AppSettings.__init__ py_none app_name settings_files) = "APP").
Proof.
  intros Hascii. unfold AppSettings.__init__. simpl.
  rewrite (str_upper_ascii _ Hascii). split_and!.
  - done.
  - apply upper_no_lower.
  - rewrite str_upper_ascii by (by apply ascii_only_upper).
    apply upper_fixed, upper_no_lower.
  - by intros ->.
Qed.

Lemma settings_prefix_is_upper_case_witness :
  AppSettings.prefix (@AppSettings.__init__ PyObj ascii_text (OVal PNone) (Some "shop") [])
  = "SHOP".
Proof.
  destruct (@settings_prefix_is_upper_case PyObj ascii_text (OVal PNone) (Some "shop") [])
    as (_ & _ & Hup & _).
  - unfold ascii_only. simpl. repeat constructor.
  - rewrite <- Hup. reflexivity.
Defined.

(** ** The loggers that [Logger] takes over *)




(** ** Dependencies are ready first, on sample managers *)


(** C5, as stated, fails on a manager that already holds instances: after
    [startup()], [register] of ["A"] once more and a second [startup()],
    which returns, the instance of ["A"] that ["B"] depends on was
    constructed after the instance of ["B"]. *)
Lemma dependency_rebuilt_after_its_dependent :
  _dependencies (manager pair_reregistered) !! "B" = Some ["A"] ∧
  @startup plain_code 2 pair_reregistered
  = Some (Ok tt, state_after (@startup plain_code 2) pair_reregistered) ∧
  history (state_after (@startup plain_code 2) pair_reregistered)
  = [EvInit "A" None; EvSetup "A" None; EvInit "B" None; EvSetup "B" None;
     EvInit "A" None; EvSetup "A" None] ∧
  _instances (manager (state_after (@startup plain_code 2) pair_reregistered)) !! "B"
  = Some (Some (mkInstance "B" 2 (Ok None))) ∧
  _instances (manager (state_after (@startup plain_code 2) pair_reregistered)) !! "A"
  = Some (Some (mkInstance "A" 4 (Ok None))).
Proof. split_and!; vm_compute; reflexivity. Qed.

(** ** Registering a class again, on sample managers *)


(** C10, as stated, fails: registering a class again can fail.  On the
    chain ["A"], ["B"], ["C"], registering ["A"] again with ["C"] as its
    dependency raises the circular-dependency error.  And since edges are
    never removed, so does registering ["A"] with ["B"] as its dependency
    after ["B"] was registered again without any: the stored lists have no
    cycle then, the graph has. *)
Lemma register_again_can_fail :
  is_Some (_instances (manager chain_abc) !! "A") ∧
  register "A" (Some ["C"]) chain_abc
  = Some (Raise (CircularDependency "A"), committed "A" (Some ["C"]) chain_abc) ∧
  _dependencies (manager pair_b_alone) !! "B" = Some [] ∧
  is_Some (_instances (manager pair_b_alone) !! "A") ∧
  register "A" (Some ["B"]) pair_b_alone
  = Some (Raise (CircularDependency "A"), committed "A" (Some ["B"]) pair_b_alone).
Proof.
  split_and!; try (vm_compute; reflexivity); eexists; vm_compute; reflexivity.
Qed.

(** ** Proxies and settings, on sample objects *)


(** C8, as stated, fails for a proxy that was torn down: [teardown]
    deletes the attribute, and a [setup] whose [_setup_proxy_impl] assigns
    nothing then never gets as far as the contract error; reading
    [self._instance] re-enters [__getattr__] at every depth, which Python
    ends with [RecursionError]. *)
Lemma torn_down_proxy_misses_the_contract :
  GlobalObjectProxy.teardown (GlobalObjectProxy.mk (Some (OSettings sample_conf)))
  = Ok (GlobalObjectProxy.mk None) ∧
  forgetful_impl (GlobalObjectProxy.mk None) = Ok (GlobalObjectProxy.mk None) ∧
  (∀ fuel, GlobalObjectProxy.setup obj_is_none obj_getattr forgetful_impl fuel
             (GlobalObjectProxy.mk None) = None).
Proof.
  split_and!; [reflexivity..|]. intros fuel.
  unfold GlobalObjectProxy.setup, GlobalObjectProxy.setup_with,
    GlobalObjectProxy.read_instance_with. simpl.
  by rewrite proxy_deleted_getattr.
Qed.


(** C9, as stated, fails for attribute access: ["prefix"] is not a key of
    the loaded settings, yet [settings.prefix] raises nothing; it is the
    proxy's own attribute.  Item access with the same key does raise. *)
Lemma own_attribute_is_not_a_missing_setting :
  obj_getattr (OSettings sample_conf) "prefix"
  = Raise (Exn AttributeError "'Settings' object has no attribute 'prefix'") ∧
  obj_getitem (OSettings sample_conf) "prefix" = Raise (Exn KeyError "prefix") ∧
  sample_getattribute 1 sample_settings "prefix" = Some (Ok (OVal (PStr "APP"))) ∧
  sample_getitem 0 sample_settings "prefix" = Some (Raise (sample_error "prefix")).
Proof. split_and!; vm_compute; reflexivity. Qed.
